(** * AudioIdentityWrapper: contact-driven audio identity layer

    A shallow embedding of [vima_bench/env/wrappers/audio_identity.py]
    and the properties of its [__init__], [reset] and [step] methods.

    Modelling conventions
    - Python floats (timestamps of [time.time()], the cooldown, rewards,
      the silent penalty, embedding samples) are exact rationals [Q];
      rounding is not modelled, except that the conversion
      [.astype("float32")] is a function of the numeric backend.
    - [numpy]'s generator is an interface ([NumpyRng]): the wrapper only
      constructs it with [default_rng(42)] and draws with [normal].
    - The simulator is an external collaborator: the tuple returned by
      [env.step(action)], the clock reading and the contact points of
      [p.getContactPoints()] are inputs of [step]; of a contact point
      only the fields [cp[1]] and [cp[2]] are read, so a contact point is
      the pair of its two body ids.
    - [self.object_sound_map] is an insertion-ordered Python dict: an
      association list with distinct keys ([dict_wf]), because [reset]
      iterates over it in order while drawing from the generator.
      [self.last_play_time], [self.audio_obj_emb] and [info] are only
      read by key and are finite maps.
    - [_play] spawns a detached process; the wav paths handed to it are
      collected in the ghost field [spawned].  The debug [print] of
      [step] writes to stdout only and is left out. *)

From Stdlib Require Import QArith Qround Lqa.
From stdpp Require Import gmap strings list fin_maps sorting.

#[local] Set Warnings "-clear-no-such-hyp".

Local Open Scope Z_scope.

(** ** Python values and exceptions *)

Inductive exn : Type :=
  | TypeError.

Inductive result (A : Type) : Type :=
  | Ok (a : A)
  | Raise (e : exn).
Arguments Ok {A} a.
Arguments Raise {A} e.

(** [x < y] on floats. *)
Definition Qltb (x y : Q) : bool := negb (Qle_bool y x).

(** ** Insertion-ordered dicts keyed by body ids *)

Fixpoint dict_get {V : Type} (d : list (Z * V)) (k : Z) : option V :=
  match d with
  | [] => None
  | (k', v) :: d' => if decide (k' = k) then Some v else dict_get d' k
  end.

Definition dict_wf {V : Type} (d : list (Z * V)) : Prop := NoDup (d.*1).

(** ** The numeric backend *)

Class NumpyRng : Type := {
  rng_state : Type;
  (** [np.random.default_rng(seed)] *)
  default_rng : Z → rng_state;
  (** [rng.normal(size=(n,))]: the samples and the advanced generator *)
  normal : rng_state → nat → list Q * rng_state;
  (** rounding of one sample by [.astype("float32")] *)
  float32 : Q → Q;
  normal_size : ∀ g n, length (normal g n).1 = n;
}.

Definition astype_float32 `{NumpyRng} (v : list Q) : list Q := float32 <$> v.

(** [v.tolist()]: float32 to Python float is exact. *)
Definition tolist (v : list Q) : list Q := v.

(** ** Events and info dictionaries *)

Record event : Type := Event {
  ev_step : Z;
  ev_object_id : Z;
  ev_sound : string;
  ev_other_body : Z;
  ev_tool_touch : bool;
}.

Inductive info_value : Type :=
  | VBool (b : bool)
  | VInt (n : Z)
  | VFloat (q : Q)
  | VStr (s : string)
  | VEvents (l : list event)
  | VIdentity (m : list (Z * option string))
  | VEmb (m : gmap Z (list Q)).

Module AudioIdentityWrapper.

Section Wrapper.
Context `{NumpyRng}.

Record State : Type := MkState {
  object_sound_map : list (Z * option string);
  cooldown : Q;
  debug : bool;
  ignore_bodies : gset Z;
  tool_bodies : gset Z;
  terminate_on_silent_touch : bool;
  silent_penalty : Q;
  last_play_time : gmap Z Q;
  audio_events : list event;
  step_count : Z;
  emb_dim : nat;
  rng : rng_state;
  audio_obj_emb : gmap Z (list Q);
  spawned : list string;
}.

(** [self.sound_bank], relative to the repository's base directory. *)
Definition sound_bank (label : string) : option string :=
  if decide (label = "tingting") then Some "sounds/obj1.wav"
  else if decide (label = "thud") then Some "sounds/obj2.wav"
  else if decide (label = "alarm") then Some "sounds/obj3.wav"
  else if decide (label = "impact") then Some "sounds/hunk_hunk.wav"
  else None.

(** [set(xs or [])] *)
Definition set_or_empty (xs : option (list Z)) : gset Z :=
  list_to_set (default [] xs).

(** The attributes assigned by [__init__]. *)
Definition init_state (object_sound_map : list (Z * option string))
    (cooldown : Q) (debug : bool)
    (ignore_bodies tool_bodies : option (list Z))
    (terminate_on_silent_touch : bool) (silent_penalty : Q) : State :=
  {| object_sound_map := object_sound_map;
     cooldown := cooldown;
     debug := debug;
     ignore_bodies := set_or_empty ignore_bodies;
     tool_bodies := set_or_empty tool_bodies;
     terminate_on_silent_touch := terminate_on_silent_touch;
     silent_penalty := silent_penalty;
     last_play_time := ∅;
     audio_events := [];
     step_count := 0;
     emb_dim := 128;
     rng := default_rng 42;
     audio_obj_emb := ∅;
     spawned := [] |}.

(** [__init__] has no [raise] and makes no check of its arguments. *)
Definition __init__ (object_sound_map : list (Z * option string))
    (cooldown : Q) (debug : bool)
    (ignore_bodies tool_bodies : option (list Z))
    (terminate_on_silent_touch : bool) (silent_penalty : Q) : result State :=
  Ok (init_state object_sound_map cooldown debug ignore_bodies tool_bodies
        terminate_on_silent_touch silent_penalty).

(** The keyword defaults of [__init__]. *)
Definition default_cooldown : Q := 1 # 4.
Definition default_silent_penalty : Q := (-1) # 1.

(** The loop of [reset] over [self.object_sound_map.items()]. *)
Fixpoint draw_embeddings (dim : nat) (items : list (Z * option string))
    (g : rng_state) (emb : gmap Z (list Q)) : gmap Z (list Q) * rng_state :=
  match items with
  | [] => (emb, g)
  | (obj_id, label) :: items' =>
      match label with
      | None => draw_embeddings dim items' g emb
      | Some _ =>
          let '(v, g') := normal g dim in
          draw_embeddings dim items' g' (<[obj_id := astype_float32 v]> emb)
      end
  end.

Definition reset {Obs : Type} (st : State) (env_reset : Obs) : State * Obs :=
  let '(emb, g) :=
    draw_embeddings (emb_dim st) (object_sound_map st) (rng st) ∅ in
  ({| object_sound_map := object_sound_map st;
      cooldown := cooldown st;
      debug := debug st;
      ignore_bodies := ignore_bodies st;
      tool_bodies := tool_bodies st;
      terminate_on_silent_touch := terminate_on_silent_touch st;
      silent_penalty := silent_penalty st;
      last_play_time := ∅;
      audio_events := [];
      step_count := 0;
      emb_dim := emb_dim st;
      rng := g;
      audio_obj_emb := emb;
      spawned := spawned st |},
   env_reset).

(** [self._play(wav)] when the sound bank knows the label. *)
Definition play (sound_label : string) (log : list string) : list string :=
  match sound_bank sound_label with
  | Some wav => log ++ [wav]
  | None => log
  end.

(** The emission at the end of the inner loop body: the event is
    appended and [now] becomes the object's last play time. *)
Definition emit (st : State) (now : Q) (hit_id other_id : Z)
    (sound_label : string) (tool_touch : bool) : State :=
  {| object_sound_map := object_sound_map st;
     cooldown := cooldown st;
     debug := debug st;
     ignore_bodies := ignore_bodies st;
     tool_bodies := tool_bodies st;
     terminate_on_silent_touch := terminate_on_silent_touch st;
     silent_penalty := silent_penalty st;
     last_play_time := <[hit_id := now]> (last_play_time st);
     audio_events :=
       audio_events st ++
       [Event (step_count st) hit_id sound_label other_id tool_touch];
     step_count := step_count st;
     emb_dim := emb_dim st;
     rng := rng st;
     audio_obj_emb := audio_obj_emb st;
     spawned := play sound_label (spawned st) |}.

(** One iteration of [for hit_id, other_id in ((a, b), (b, a))]; the
    accumulator is the wrapper state and the flag [silent_violation]. *)
Definition process_hit (now : Q) (hit_id other_id : Z)
    (acc : State * bool) : State * bool :=
  let '(st, silent_violation) := acc in
  match dict_get (object_sound_map st) hit_id with
  | None => acc
  | Some sound_label =>
      let tool_touch := bool_decide (other_id ∈ tool_bodies st) in
      let object_touch := bool_decide (other_id ∉ ignore_bodies st) in
      if negb (tool_touch || object_touch) then acc
      else
        match sound_label with
        | None => if tool_touch then (st, true) else acc
        | Some label =>
            let last := default 0%Q (last_play_time st !! hit_id) in
            if Qltb (now - last) (cooldown st) then acc
            else (emit st now hit_id other_id label tool_touch,
                  silent_violation)
        end
  end.

(** One iteration of [for cp in cps]. *)
Definition process_cp (now : Q) (acc : State * bool) (cp : Z * Z)
    : State * bool :=
  let '(body_a, body_b) := cp in
  if bool_decide (body_a ∈ ignore_bodies (acc.1))
     || bool_decide (body_b ∈ ignore_bodies (acc.1))
  then acc
  else process_hit now body_b body_a (process_hit now body_a body_b acc).

Definition process_contacts (now : Q) (acc : State * bool)
    (cps : list (Z * Z)) : State * bool :=
  foldl (process_cp now) acc cps.

Definition tick (st : State) : State :=
  {| object_sound_map := object_sound_map st;
     cooldown := cooldown st;
     debug := debug st;
     ignore_bodies := ignore_bodies st;
     tool_bodies := tool_bodies st;
     terminate_on_silent_touch := terminate_on_silent_touch st;
     silent_penalty := silent_penalty st;
     last_play_time := last_play_time st;
     audio_events := audio_events st;
     step_count := step_count st + 1;
     emb_dim := emb_dim st;
     rng := rng st;
     audio_obj_emb := audio_obj_emb st;
     spawned := spawned st |}.

(** The rule "touching silent objects ends the episode": [dict(info)]
    raises [TypeError] when [info] is [None]. *)
Definition enforce (st : State) (silent_violation : bool)
    (reward : Q) (done : bool) (info : option (gmap string info_value))
    : result (Q * bool * option (gmap string info_value)) :=
  if terminate_on_silent_touch st && silent_violation && negb done then
    match info with
    | None => Raise TypeError
    | Some d =>
        Ok (silent_penalty st, true,
            Some (<["terminated_reason" :=
                    VStr "touched_silent_object_with_tool"]> d))
    end
  else Ok (reward, done, info).

(** The audio information exposed on every step. *)
Definition expose (st : State) (info : option (gmap string info_value))
    : gmap string info_value :=
  let info0 := match info with Some d => d | None => ∅ end in
  let info1 := <["audio_events" := VEvents (audio_events st)]> info0 in
  let info2 := <["audio_identity" := VIdentity (object_sound_map st)]> info1 in
  let info3 := <["audio_obj_emb" := VEmb (tolist <$> audio_obj_emb st)]> info2 in
  <["audio_emb_dim" := VInt (Z.of_nat (emb_dim st))]> info3.

(** [step]: [env_step] is what [self.env.step(action)] returned, [now]
    the clock reading and [cps] the contact points.  The wrapper state
    is updated also when the call raises. *)
Definition step {Obs : Type} (st : State)
    (env_step : Obs * Q * bool * option (gmap string info_value))
    (now : Q) (cps : list (Z * Z))
    : State * result (Obs * Q * bool * gmap string info_value) :=
  let '(obs, reward, done, info) := env_step in
  let '(st', silent_violation) :=
    process_contacts now (tick st, false) cps in
  match enforce st' silent_violation reward done info with
  | Raise e => (st', Raise e)
  | Ok (reward', done', info') =>
      (st', Ok (obs, reward', done', expose st' info'))
  end.

End Wrapper.

End AudioIdentityWrapper.

Import AudioIdentityWrapper.

(** ** Vocabulary of the properties *)

(** A call of the wrapper's interface, with what the simulator, the
    clock and the contact query answered during the call. *)
Inductive call (Obs : Type) : Type :=
  | CallReset (env_reset : Obs)
  | CallStep (env_step : Obs * Q * bool * option (gmap string info_value))
      (now : Q) (cps : list (Z * Z)).
Arguments CallReset {Obs} env_reset.
Arguments CallStep {Obs} env_step now cps.

Section Vocabulary.
Context `{NumpyRng}.

(** The configuration of a wrapper: everything [step]'s loop leaves alone. *)
Definition same_config (st st' : State) : Prop :=
  object_sound_map st' = object_sound_map st
  ∧ cooldown st' = cooldown st
  ∧ ignore_bodies st' = ignore_bodies st
  ∧ tool_bodies st' = tool_bodies st
  ∧ terminate_on_silent_touch st' = terminate_on_silent_touch st
  ∧ silent_penalty st' = silent_penalty st
  ∧ step_count st' = step_count st
  ∧ emb_dim st' = emb_dim st
  ∧ rng st' = rng st
  ∧ audio_obj_emb st' = audio_obj_emb st.

(** The events of one object in a part of the log. *)
Definition events_of (obj_id : Z) (l : list event) : list event :=
  filter (λ e, ev_object_id e = obj_id) l.

(** Loop invariant of [step] for a positive cooldown: the events
    appended since the loop started belong to distinct objects, each of
    which has [now] as its last play time. *)
Definition once_each (now : Q) (st0 st : State) : Prop :=
  ∃ new,
    audio_events st = audio_events st0 ++ new
    ∧ (∀ e, e ∈ new → last_play_time st !! ev_object_id e = Some now)
    ∧ ∀ obj_id, (length (events_of obj_id new) ≤ 1)%nat.

(** The generator as a stream of float32 vectors of a fixed size. *)
Definition advance (dim : nat) (g : rng_state) : rng_state := (normal g dim).2.

(** The vector [reset] stores for a draw: [normal(...).astype("float32")]. *)
Definition draw (dim : nat) (g : rng_state) : list Q :=
  astype_float32 (normal g dim).1.

(** The generator after [n] draws, and the vector of the draw after them. *)
Definition nth_state (dim : nat) (g : rng_state) (n : nat) : rng_state :=
  Nat.iter n (advance dim) g.

Definition nth_draw (dim : nat) (g : rng_state) (n : nat) : list Q :=
  draw dim (nth_state dim g n).

(** The ids with a label, in the dict's order. *)
Definition labelled_ids (items : list (Z * option string)) : list Z :=
  omap (λ kv, match kv.2 with Some _ => Some kv.1 | None => None end) items.

(** The states a wrapper goes through: built by [__init__] from a dict,
    then any sequence of [reset] and [step] calls. *)
Inductive reachable : State → Prop :=
  | reach_init m cd dbg ign tools term pen st :
      dict_wf m →
      __init__ m cd dbg ign tools term pen = Ok st →
      reachable st
  | reach_reset (Obs : Type) st (env_reset : Obs) :
      reachable st → reachable (reset st env_reset).1
  | reach_step (Obs : Type) st
      (env_step : Obs * Q * bool * option (gmap string info_value)) now cps :
      reachable st → reachable (step st env_step now cps).1.

(** What holds of the identity map and the embeddings in every
    reachable state. *)
Definition identity_inv (st : State) : Prop :=
  dict_wf (object_sound_map st)
  ∧ emb_dim st = 128%nat
  ∧ ∀ k v, audio_obj_emb st !! k = Some v →
      length v = 128%nat
      ∧ ∃ label, dict_get (object_sound_map st) k = Some (Some label).

(** The wrapper state after one call, and after a sequence of calls. *)
Definition perform {Obs : Type} (st : State) (c : call Obs) : State :=
  match c with
  | CallReset env_reset => (reset st env_reset).1
  | CallStep env_step now cps => (step st env_step now cps).1
  end.

Definition run {Obs : Type} (st : State) (calls : list (call Obs)) : State :=
  foldl perform st calls.


Definition is_step {Obs : Type} (c : call Obs) : Prop :=
  match c with CallStep _ _ _ => True | CallReset _ => False end.


(** The body [hit] is tracked and silent. *)
Definition is_silent (st : State) (hit : Z) : bool :=
  match dict_get (object_sound_map st) hit with
  | Some None => true
  | _ => false
  end.

(** A non-ignored contact pair in which a silent tracked object is
    touched by a tool body. *)
Definition silent_touch_pair (st : State) (cp : Z * Z) : bool :=
  bool_decide (cp.1 ∉ ignore_bodies st)
  && bool_decide (cp.2 ∉ ignore_bodies st)
  && ((is_silent st cp.1 && bool_decide (cp.2 ∈ tool_bodies st))
      || (is_silent st cp.2 && bool_decide (cp.1 ∈ tool_bodies st))).

(** The contact points of a step contain such a pair. *)
Definition silent_touch (st : State) (cps : list (Z * Z)) : Prop :=
  ∃ cp, cp ∈ cps ∧ silent_touch_pair st cp = true.

(** The keys the wrapper writes into [info] on every step. *)
Definition audio_keys : gset string :=
  {[ "audio_events"; "audio_identity"; "audio_obj_emb"; "audio_emb_dim" ]}.

(** The policy forces termination in this step. *)
Definition forced (st : State) (cps : list (Z * Z)) (done : bool) : bool :=
  terminate_on_silent_touch st
  && existsb (silent_touch_pair st) cps
  && negb done.

(** An id of the identity map is also in the ignore-set or tool-set. *)
Definition collides (m : list (Z * option string))
    (ign tools : option (list Z)) : Prop :=
  ∃ k, k ∈ m.*1 ∧ (k ∈ set_or_empty ign ∨ k ∈ set_or_empty tools).

End Vocabulary.


(** ** A concrete backend and concrete wrappers

    A counter generator: the n-th draw is the constant vector of value
    seed + n.  It is used to run the wrapper on concrete inputs. *)

#[export] Instance counter_rng : NumpyRng := {|
  rng_state := Z;
  default_rng := λ seed, seed;
  normal := λ g n, (replicate n (inject_Z g), g + 1);
  float32 := λ q, q;
  normal_size := λ g n, length_replicate n (inject_Z g);
|}.

(** A wrapper as the evaluation scripts build it: body 5 is silent,
    bodies 6 and 7 carry a label, 0 and 1 are scenery, 9 is the tool,
    and touching a silent object ends the episode. *)
Definition demo_map : list (Z * option string) :=
  [(5, None); (6, Some "tingting"); (7, Some "thud")].

Definition demo : State :=
  init_state demo_map default_cooldown false (Some [0; 1]) (Some [9]) true
    default_silent_penalty.

(** One labelled body, the tool 3, and a cooldown to choose. *)
Definition solo (cooldown : Q) : State :=
  init_state [(7, Some "tingting")] cooldown false None (Some [3]) false
    default_silent_penalty.

(** What a simulator step returned: no reward, not done, empty info. *)
Definition quiet : unit * Q * bool * option (gmap string info_value) :=
  (tt, 0%Q, false, Some ∅).

(** The same with [None] for info. *)
Definition quiet_no_info : unit * Q * bool * option (gmap string info_value) :=
  (tt, 0%Q, false, None).

(** ** Vocabulary of the further properties *)

Section MoreVocabulary.
Context `{NumpyRng}.

(** The body is tracked and has a label. *)
Definition has_label (st : State) (id : Z) : bool :=
  match dict_get (object_sound_map st) id with
  | Some (Some _) => true
  | _ => false
  end.

(** What an event appended during a step looks like, [st0] being the
    state at the start of the loop and [cps] the contact points. *)
Definition event_ok (st0 : State) (cps : list (Z * Z)) (e : event) : Prop :=
  ev_step e = step_count st0
  ∧ dict_get (object_sound_map st0) (ev_object_id e) = Some (Some (ev_sound e))
  ∧ (ev_object_id e ∉ ignore_bodies st0)
  ∧ (ev_other_body e ∉ ignore_bodies st0)
  ∧ ev_tool_touch e = bool_decide (ev_other_body e ∈ tool_bodies st0)
  ∧ ((ev_object_id e, ev_other_body e) ∈ cps
     ∨ (ev_other_body e, ev_object_id e) ∈ cps).

(** The wav paths handed to [_play] for a list of events. *)
Definition wavs_of (new : list event) : list string :=
  omap (λ e, sound_bank (ev_sound e)) new.

(** The state [st] in the loop of a step that started in [st0]. *)
Definition step_trace (now : Q) (cps : list (Z * Z)) (st0 st : State) : Prop :=
  ∃ new,
    audio_events st = audio_events st0 ++ new
    ∧ same_config st0 st
    ∧ Forall (event_ok st0 cps) new
    ∧ spawned st = spawned st0 ++ wavs_of new
    ∧ ∀ id, last_play_time st !! id
            = if bool_decide (id ∈ ev_object_id <$> new) then Some now
              else last_play_time st0 !! id.

(** The number of events a contact pair emits when no cooldown is in
    the way: none if a body is ignored, else one per labelled side. *)
Definition emitting_sides (st : State) (cp : Z * Z) : nat :=
  if bool_decide (cp.1 ∈ ignore_bodies st)
     || bool_decide (cp.2 ∈ ignore_bodies st)
  then 0%nat
  else ((if has_label st cp.1 then 1 else 0)
        + (if has_label st cp.2 then 1 else 0))%nat.

(** A wrapper inside an episode: [reset] has been called. *)
Inductive in_episode : State → Prop :=
  | episode_reset (Obs : Type) st (env_reset : Obs) :
      reachable st → in_episode (reset st env_reset).1
  | episode_step (Obs : Type) st
      (env_step : Obs * Q * bool * option (gmap string info_value)) now cps :
      in_episode st → in_episode (step st env_step now cps).1.

(** What the caller sees of a step besides info; [None] if it raised. *)
Definition outcome {Obs : Type}
    (r : result (Obs * Q * bool * gmap string info_value))
    : option (Obs * Q * bool) :=
  match r with
  | Ok (obs, reward, done, _) => Some (obs, reward, done)
  | Raise _ => None
  end.

(** The step indices of a log never decrease. *)
Definition steps_ascend (l : list event) : Prop :=
  StronglySorted (λ e1 e2, ev_step e1 ≤ ev_step e2) l.

End MoreVocabulary.

(** ** The callers of the wrapper

    The queries of the physics engine are inputs: [getNumJoints bid] and
    [mass bid] are [None] when the query raises, and [lname bid] is the
    lower-cased name of the body. *)

(** [range(n)] *)
Definition range (n : nat) : list Z := seqZ 0 (Z.of_nat n).

(** [sub in s] on strings *)
Fixpoint contains (sub s : string) : bool :=
  String.prefix sub s
  || match s with
     | EmptyString => false
     | String _ s' => contains sub s'
     end.

(** [d[k] = v]: the value is replaced in place, a new key goes last. *)
Fixpoint dict_set {V : Type} (d : list (Z * V)) (k : Z) (v : V)
    : list (Z * V) :=
  match d with
  | [] => [(k, v)]
  | (k', v') :: d' =>
      if decide (k' = k) then (k, v) :: d' else (k', v') :: dict_set d' k v
  end.

(** [labels[i % len(labels)]] for a list of three labels. *)
Definition cycle_label (labels : list string) (i : nat) : string :=
  nth (i mod length labels) labels "".

Module EvalAudioVima.

Definition SOUND_LABELS : list string := ["tingting"; "thud"; "alarm"].

(** The loop of [detect_robot_body]. *)
Fixpoint detect_loop (getNumJoints : Z → option Z) (bids : list Z)
    (best best_j : Z) : Z :=
  match bids with
  | [] => best
  | bid :: bids' =>
      match getNumJoints bid with
      | Some nj =>
          if best_j <? nj then detect_loop getNumJoints bids' bid nj
          else detect_loop getNumJoints bids' best best_j
      | None => detect_loop getNumJoints bids' best best_j
      end
  end.

Definition detect_robot_body (nb : nat) (getNumJoints : Z → option Z) : Z :=
  detect_loop getNumJoints (range nb) 0 (-1).

(** The test of the first loop of [build_object_sound_map]. *)
Definition is_candidate (ignore_bodies tool_bodies : gset Z)
    (mass : Z → option Q) (bid : Z) : bool :=
  if bool_decide (bid ∈ ignore_bodies) || bool_decide (bid ∈ tool_bodies)
  then false
  else match mass bid with
       | None => false
       | Some m => negb (Qeq_bool m 0) && Qltb 0 m
       end.

(** The second loop of [build_object_sound_map]. *)
Fixpoint assign_labels (silent_set : gset Z) (candidates : list Z) (si : nat)
    (obj_map : list (Z * option string)) : list (Z * option string) :=
  match candidates with
  | [] => obj_map
  | bid :: candidates' =>
      if bool_decide (bid ∈ silent_set)
      then assign_labels silent_set candidates' si (dict_set obj_map bid None)
      else assign_labels silent_set candidates' (S si)
             (dict_set obj_map bid (Some (cycle_label SOUND_LABELS si)))
  end.

(** [silent_count n] stands for [int(round(n * SILENT_FRACTION))], a
    float computation. *)
Definition build_object_sound_map (silent_count : nat → nat)
    (nb : nat) (mass : Z → option Q) (ignore_bodies tool_bodies : gset Z)
    : list (Z * option string) * list Z :=
  let candidates :=
    merge_sort Z.le
      (filter (λ bid, is_candidate ignore_bodies tool_bodies mass bid)
         (range nb)) in
  let n := length candidates in
  let silent_n := silent_count n in
  let silent_set : gset Z := list_to_set (take silent_n candidates) in
  (assign_labels silent_set candidates 0 [], candidates).

(** [any(k in name for k in ["plane", "ground", "table", "workspace"])] *)
Definition scenery_named (lname : string) : bool :=
  existsb (λ k, contains k lname) ["plane"; "ground"; "table"; "workspace"].

(** The bodies [run_episode] ignores and the bodies it takes for tools. *)
Definition episode_bodies (nb : nat) (lname : Z → string)
    (getNumJoints : Z → option Z) : gset Z * gset Z :=
  let ignore_bodies : gset Z :=
    list_to_set (filter (λ bid, scenery_named (lname bid)) (range nb)) in
  let robot_id := detect_robot_body nb getNumJoints in
  (ignore_bodies ∪ {[robot_id]}, {[robot_id]}).

Section Episode.
Context `{NumpyRng}.

(** The wrapper [run_episode] constructs. *)
Definition episode_wrapper (silent_count : nat → nat) (nb : nat)
    (lname : Z → string) (getNumJoints : Z → option Z) (mass : Z → option Q)
    : result State :=
  let '(ignore_bodies, tool_bodies) := episode_bodies nb lname getNumJoints in
  let '(object_sound_map, dynamic_objects) :=
    build_object_sound_map silent_count nb mass ignore_bodies tool_bodies in
  __init__ object_sound_map default_cooldown false
    (Some (elements ignore_bodies)) (Some (elements tool_bodies))
    true default_silent_penalty.

End Episode.

End EvalAudioVima.

Module DemoTrimodalGui.

Definition tool_named (lname : string) : bool :=
  contains "spatula" lname || contains "suction" lname
  || contains "gripper" lname.

Definition ignored (mass : Q) (lname : string) : bool :=
  Qeq_bool mass 0 || contains "line.urdf" lname || contains "workspace" lname
  || contains "ur5" lname || contains "plane" lname.

Definition is_object (mass : Q) (lname : string) : bool :=
  Qltb 0 mass && negb (tool_named lname).

(** The three collections the detection loop fills. *)
Definition tool_ids (nb : nat) (lname : Z → string) : list Z :=
  filter (λ i, tool_named (lname i)) (range nb).

Definition ignore_bodies (nb : nat) (mass : Z → Q) (lname : Z → string)
    : gset Z :=
  list_to_set (filter (λ i, ignored (mass i) (lname i)) (range nb)).

Definition object_ids (nb : nat) (mass : Z → Q) (lname : Z → string)
    : list Z :=
  filter (λ i, is_object (mass i) (lname i)) (range nb).

Definition labels : list string := ["tingting"; "thud"; "alarm"].

(** [for idx, oid in enumerate(object_ids): object_sound_map[oid] = ...] *)
Fixpoint assign_cycle (oids : list Z) (idx : nat)
    (object_sound_map : list (Z * option string))
    : list (Z * option string) :=
  match oids with
  | [] => object_sound_map
  | oid :: oids' =>
      assign_cycle oids' (S idx)
        (dict_set object_sound_map oid (Some (cycle_label labels idx)))
  end.

Definition object_sound_map (nb : nat) (mass : Z → Q) (lname : Z → string)
    : list (Z * option string) :=
  assign_cycle (object_ids nb mass lname) 0 [].

Section Demo.
Context `{NumpyRng}.

(** The wrapper the demo attaches. *)
Definition demo_wrapper (nb : nat) (mass : Z → Q) (lname : Z → string)
    : result State :=
  __init__ (object_sound_map nb mass lname) (1 # 4) false
    (Some (elements (ignore_bodies nb mass lname)))
    (Some (elements (list_to_set (C := gset Z) (tool_ids nb lname))))
    false default_silent_penalty.

(** The audio vector the demo derives from the three audio entries of
    [info]: the embedding of the most recent event's object, else
    zeros. *)
Definition audio_vec (emb_dim : nat) (events : list event)
    (emb_map : gmap Z (list Q)) : list Q :=
  match last events with
  | Some e =>
      match emb_map !! ev_object_id e with
      | Some v => astype_float32 v
      | None => replicate emb_dim 0%Q
      end
  | None => replicate emb_dim 0%Q
  end.

(** The same from [info], with the defaults of the three [info.get]
    calls; [None] when an entry is not of the type the wrapper writes. *)
Definition audio_vec_of_info (info : gmap string info_value)
    : option (list Q) :=
  match default (VInt 128) (info !! "audio_emb_dim"),
        default (VEvents []) (info !! "audio_events"),
        default (VEmb ∅) (info !! "audio_obj_emb") with
  | VInt n, VEvents events, VEmb emb_map =>
      if n <? 0 then None else Some (audio_vec (Z.to_nat n) events emb_map)
  | _, _, _ => None
  end.

End Demo.

End DemoTrimodalGui.

(** The pairs [assign_labels] writes, without the dict. *)
Fixpoint labelled_from (silent_set : gset Z) (candidates : list Z) (si : nat)
    : list (Z * option string) :=
  match candidates with
  | [] => []
  | bid :: candidates' =>
      if bool_decide (bid ∈ silent_set)
      then (bid, None) :: labelled_from silent_set candidates' si
      else (bid, Some (cycle_label EvalAudioVima.SOUND_LABELS si))
           :: labelled_from silent_set candidates' (S si)
  end.

(** [int(round(n * 0.33))] in exact arithmetic, rounding half to even. *)
Definition round_half_even (x : Q) : Z :=
  let f := Qfloor x in
  let r := (x - inject_Z f)%Q in
  if Qltb r (1 # 2) then f
  else if Qltb (1 # 2) r then f + 1
  else if Z.even f then f else f + 1.

Definition silent_count_exact (n : nat) : nat :=
  Z.to_nat (round_half_even (inject_Z (Z.of_nat n) * (33 # 100))).

(** A scene for the callers: plane 0, table 1, the arm 2 with six
    joints, and four dynamic blocks 3..6; body 7 raises on queries. *)
Definition scene_bodies : nat := 8.

Definition scene_lname (bid : Z) : string :=
  if decide (bid = 0) then "plane"
  else if decide (bid = 1) then "table"
  else if decide (bid = 2) then "ur5_spatula"
  else "block".

Definition scene_joints (bid : Z) : option Z :=
  if decide (bid = 2) then Some 6
  else if decide (bid = 7) then None
  else Some 0.

Definition scene_mass (bid : Z) : option Q :=
  if decide (bid = 0) then Some 0%Q
  else if decide (bid = 1) then Some 0%Q
  else if decide (bid = 7) then None
  else Some (1 # 2).

Definition scene_mass_total (bid : Z) : Q := default 0%Q (scene_mass bid).

(** The demo wrapper with the tool 9 also in the ignore-set. *)
Definition robot_ignored : State :=
  init_state demo_map default_cooldown false (Some [0; 1; 9]) (Some [9]) true
    default_silent_penalty.

(** The wrapper [run_episode] constructs for the scene. *)
Definition scene_state : State :=
  match EvalAudioVima.episode_wrapper silent_count_exact scene_bodies
          scene_lname scene_joints scene_mass with
  | Ok st => st
  | Raise _ => demo
  end.

(** The wrapper the demo attaches for the scene, after its reset. *)
Definition scene_demo_state : State :=
  match DemoTrimodalGui.demo_wrapper scene_bodies scene_mass_total
          scene_lname with
  | Ok st => (reset st tt).1
  | Raise _ => demo
  end.

(** A generator of two states: it draws the constant vectors 0 and 1
    in turn. *)
Definition flip_rng : NumpyRng := {|
  rng_state := bool;
  default_rng := λ _, false;
  normal := λ g n, (replicate n (if g then 1%Q else 0%Q), negb g);
  float32 := λ q, q;
  normal_size := λ g n, length_replicate n (if g then 1%Q else 0%Q);
|}.

(** The demo wrapper on the two-state generator. *)
Definition flip_demo : @State flip_rng :=
  @init_state flip_rng demo_map default_cooldown false (Some [0; 1])
    (Some [9]) true default_silent_penalty.


(** A wrapper in which the labelled body 6 is also a tool body. *)
Definition tracked_tool : State :=
  init_state [(5, None); (6, Some "tingting")] default_cooldown false None
    (Some [6]) true default_silent_penalty.

(** ** Properties *)

Section Properties.
Context `{NumpyRng}.

Lemma Qltb_true (x y : Q) : Qltb x y = true ↔ (x < y)%Q.
Proof.
  unfold Qltb. rewrite negb_true_iff, <- not_true_iff_false, Qle_bool_iff.
  split; [apply Qnot_le_lt | apply Qlt_not_le].
Qed.

Lemma Qltb_false (x y : Q) : Qltb x y = false ↔ (y <= x)%Q.
Proof. unfold Qltb. rewrite negb_false_iff. apply Qle_bool_iff. Qed.

Lemma same_config_refl st : same_config st st.
Proof. repeat split. Qed.

Lemma same_config_trans st1 st2 st3 :
  same_config st1 st2 → same_config st2 st3 → same_config st1 st3.
Proof.
  unfold same_config. intros (?&?&?&?&?&?&?&?&?&?) (?&?&?&?&?&?&?&?&?&?).
  repeat split; congruence.
Qed.

Lemma emit_same_config st now hit other label tt :
  same_config st (emit st now hit other label tt).
Proof. repeat split. Qed.

Lemma process_hit_same_config now hit other st flag :
  same_config st (process_hit now hit other (st, flag)).1.
Proof.
  unfold process_hit.
  destruct (dict_get _ hit) as [[label|]|]; simpl;
    repeat case_match; simpl;
    auto using same_config_refl, emit_same_config.
Qed.

Lemma process_cp_same_config now cp st flag :
  same_config st (process_cp now (st, flag) cp).1.
Proof.
  destruct cp as [a b]. unfold process_cp. cbn [fst].
  case_match; [apply same_config_refl|].
  destruct (process_hit now a b (st, flag)) as [st1 f1] eqn:E1.
  eapply same_config_trans; [|apply process_hit_same_config].
  change st1 with (st1, f1).1. rewrite <- E1. apply process_hit_same_config.
Qed.

Lemma process_contacts_same_config now cps st flag :
  same_config st (process_contacts now (st, flag) cps).1.
Proof.
  revert st flag. induction cps as [|cp cps IH]; intros st flag.
  - apply same_config_refl.
  - unfold process_contacts in *. cbn [foldl].
    destruct (process_cp now (st, flag) cp) as [st1 f1] eqn:E1.
    eapply same_config_trans; [|apply IH].
    change st1 with (st1, f1).1. rewrite <- E1. apply process_cp_same_config.
Qed.

Lemma process_contacts_app now acc l1 l2 :
  process_contacts now acc (l1 ++ l2)
  = process_contacts now (process_contacts now acc l1) l2.
Proof. unfold process_contacts. apply foldl_app. Qed.

(** *** Ignored bodies *)

Lemma process_cp_ignored now st flag a b :
  a ∈ ignore_bodies st ∨ b ∈ ignore_bodies st →
  process_cp now (st, flag) (a, b) = (st, flag).
Proof.
  intros Hign. unfold process_cp. cbn [fst].
  destruct Hign as [Ha|Hb].
  - by rewrite (bool_decide_eq_true_2 _ Ha).
  - rewrite (bool_decide_eq_true_2 _ Hb). by rewrite orb_true_r.
Qed.

(** C3.  A contact pair with a body of the ignore-set leaves the event
    log, the cooldown state and the violation flag as they are, whatever
    the labels of the two bodies; a step that observes the pair among
    its contact points returns exactly what it returns without it. *)
Theorem ignored_pair_no_event_no_violation :
  ∀ (st : State) (flag : bool) (now : Q) (a b : Z),
    a ∈ ignore_bodies st ∨ b ∈ ignore_bodies st →
    process_cp now (st, flag) (a, b) = (st, flag)
    ∧ ∀ (Obs : Type) (env_step : Obs * Q * bool * option (gmap string info_value))
        (before after : list (Z * Z)),
        step st env_step now (before ++ (a, b) :: after)
        = step st env_step now (before ++ after).
Proof.
  intros st flag now a b Hign. split; [by apply process_cp_ignored|].
  intros Obs [[[obs reward] done] info] before after. unfold step.
  rewrite !process_contacts_app.
  destruct (process_contacts now (tick st, false) before) as [st1 f1] eqn:E1.
  assert (ignore_bodies st1 = ignore_bodies st) as Hig.
  { pose proof (process_contacts_same_config now before (tick st) false) as Hc.
    rewrite E1 in Hc. destruct Hc as (_&_&Hc&_). exact Hc. }
  replace (process_contacts now (st1, f1) ((a, b) :: after))
    with (process_contacts now (process_cp now (st1, f1) (a, b)) after)
    by reflexivity.
  rewrite process_cp_ignored; [done|]. by rewrite Hig.
Qed.

(** *** The inner loop body *)

(** The three outcomes of one [(hit_id, other_id)] iteration: nothing
    happens, the violation flag is raised, or an event is emitted. *)
Lemma process_hit_cases now hit other st flag :
  process_hit now hit other (st, flag) = (st, flag)
  ∨ (dict_get (object_sound_map st) hit = Some None
     ∧ other ∈ tool_bodies st
     ∧ process_hit now hit other (st, flag) = (st, true))
  ∨ (∃ label,
       dict_get (object_sound_map st) hit = Some (Some label)
       ∧ (cooldown st <= now - default 0%Q (last_play_time st !! hit))%Q
       ∧ process_hit now hit other (st, flag)
         = (emit st now hit other label (bool_decide (other ∈ tool_bodies st)),
            flag)).
Proof.
  unfold process_hit.
  destruct (dict_get (object_sound_map st) hit) as [[label|]|] eqn:Hget;
    [| |by left].
  - destruct (negb _) eqn:Hrel; [by left|].
    destruct (Qltb _ _) eqn:Hcd; [by left|].
    right. right. exists label. apply Qltb_false in Hcd. by repeat split.
  - destruct (negb _) eqn:Hrel; [by left|].
    destruct (bool_decide (other ∈ tool_bodies st)) eqn:Htool; [|by left].
    right. left. apply bool_decide_eq_true in Htool. by repeat split.
Qed.

(** A tracked, labelled object in a relevant contact: the cooldown alone
    decides. *)
Lemma process_hit_labelled now hit other st flag label :
  dict_get (object_sound_map st) hit = Some (Some label) →
  other ∉ ignore_bodies st →
  process_hit now hit other (st, flag)
  = if Qltb (now - default 0%Q (last_play_time st !! hit)) (cooldown st)
    then (st, flag)
    else (emit st now hit other label (bool_decide (other ∈ tool_bodies st)),
          flag).
Proof.
  intros Hget Hother. unfold process_hit. rewrite Hget.
  rewrite (bool_decide_eq_true_2 (other ∉ ignore_bodies st) Hother).
  by rewrite orb_true_r.
Qed.

Lemma emit_events st now hit other label tt :
  audio_events (emit st now hit other label tt)
  = audio_events st ++ [Event (step_count st) hit label other tt].
Proof. reflexivity. Qed.

Lemma emit_last_play_time st now hit other label tt :
  last_play_time (emit st now hit other label tt)
  = <[hit := now]> (last_play_time st).
Proof. reflexivity. Qed.

(** *** The cooldown gate *)

(** C2 (amended).  For a labelled tracked object in a relevant contact,
    the event is appended and [now] recorded as the object's last play
    time if and only if [now - last >= cooldown], where [last] is the
    recorded last play time, or [0.0] when none is recorded; before
    that the contact changes nothing; with a cooldown of zero the
    emission happens whenever the clock has not gone back behind
    [last]. *)
Theorem cooldown_gate :
  ∀ (st : State) (flag : bool) (now : Q) (hit other : Z) (label : string),
    dict_get (object_sound_map st) hit = Some (Some label) →
    other ∉ ignore_bodies st →
    let last := default 0%Q (last_play_time st !! hit) in
    let tool_touch := bool_decide (other ∈ tool_bodies st) in
    let after := process_hit now hit other (st, flag) in
    ((audio_events after.1
        = audio_events st ++ [Event (step_count st) hit label other tool_touch]
      ∧ last_play_time after.1 !! hit = Some now)
     ↔ (cooldown st <= now - last)%Q)
    ∧ ((now - last < cooldown st)%Q → after = (st, flag))
    ∧ ((cooldown st == 0)%Q → (last <= now)%Q →
       after = (emit st now hit other label tool_touch, flag)).
Proof.
  intros st flag now hit other label Hget Hother last tool_touch after.
  subst after. rewrite (process_hit_labelled _ _ _ _ _ _ Hget Hother).
  fold last tool_touch.
  destruct (Qltb (now - last) (cooldown st)) eqn:Hcd.
  - apply Qltb_true in Hcd. split; [|split].
    + split; [|intros Hle; exfalso; revert Hcd; by apply Qle_not_lt].
      intros [Hev _]. cbn [fst] in Hev.
      apply (f_equal length) in Hev. rewrite length_app in Hev.
      simpl in Hev. lia.
    + done.
    + intros Hz Hlast. exfalso. lra.
  - apply Qltb_false in Hcd. split; [|split].
    + split; [done|]. intros _. cbn [fst]. split; [apply emit_events|].
      rewrite emit_last_play_time. apply lookup_insert_eq.
    + intros Hlt. exfalso. revert Hlt. by apply Qle_not_lt.
    + done.
Qed.

(** *** Object-to-object contacts *)

(** An iteration in which the other body is not a tool only appends to
    the event log and keeps the violation flag. *)
Lemma process_hit_no_tool now hit other st flag :
  other ∉ tool_bodies st →
  ∃ post,
    audio_events (process_hit now hit other (st, flag)).1
    = audio_events st ++ post
    ∧ (process_hit now hit other (st, flag)).2 = flag.
Proof.
  intros Hnt.
  destruct (process_hit_cases now hit other st flag)
    as [-> | [(_ & Ht & _) | (label & _ & _ & ->)]].
  - exists []. by rewrite app_nil_r.
  - done.
  - eexists. split; [apply emit_events | done].
Qed.

(** One iteration of [for cp in cps] on an object-to-object pair: a
    labelled tracked object [d] touches a body [a]; neither is ignored
    and neither is a tool, and the cooldown of [d] permits in the state
    the iteration starts from.  Whichever way round the pair is
    reported, the event of [d] with [tool_touch = false] is appended,
    and the violation flag is as it was. *)
Lemma process_cp_object_contact :
  ∀ (st : State) (flag : bool) (now : Q) (d a : Z) (label : string)
    (cp : Z * Z),
    dict_get (object_sound_map st) d = Some (Some label) →
    d ∉ ignore_bodies st → a ∉ ignore_bodies st →
    d ∉ tool_bodies st → a ∉ tool_bodies st →
    (cooldown st <= now - default 0%Q (last_play_time st !! d))%Q →
    cp = (d, a) ∨ cp = (a, d) →
    (∃ pre post,
       audio_events (process_cp now (st, flag) cp).1
       = audio_events st ++ pre
         ++ [Event (step_count st) d label a false] ++ post)
    ∧ (process_cp now (st, flag) cp).2 = flag.
Proof.
  intros st flag now d a label cp Hget Hd Ha Hdt Hat Hcd Hcp.
  assert (process_hit now d a (st, flag)
          = (emit st now d a label false, flag)) as Hemit.
  { rewrite (process_hit_labelled _ _ _ _ _ _ Hget Ha).
    apply Qltb_false in Hcd. rewrite Hcd.
    by rewrite (bool_decide_eq_false_2 _ Hat). }
  assert (∀ x y, (x = d ∧ y = a) ∨ (x = a ∧ y = d) →
            process_cp now (st, flag) (x, y)
            = process_hit now y x (process_hit now x y (st, flag))) as Hpair.
  { intros x y [[-> ->] | [-> ->]]; unfold process_cp; cbn [fst];
      by rewrite !bool_decide_eq_false_2 by done. }
  destruct (decide (a = d)) as [->|Hne].
  { (* the pair (d, d) *)
    assert (cp = (d, d)) as -> by (by destruct Hcp).
    rewrite Hpair by (by left). rewrite Hemit.
    destruct (process_hit_no_tool now d d (emit st now d d label false) flag)
      as (post & Hev & Hfl); [exact Hdt|].
    split; [|done]. exists [], post. by rewrite Hev, emit_events, <- app_assoc. }
  destruct Hcp as [-> | ->]; rewrite Hpair by (first [by left | by right]).
  - rewrite Hemit.
    destruct (process_hit_no_tool now a d (emit st now d a label false) flag)
      as (post & Hev & Hfl); [exact Hdt|].
    split; [|done]. exists [], post. by rewrite Hev, emit_events, <- app_assoc.
  - destruct (process_hit_cases now a d st flag)
      as [-> | [(_ & Ht & _) | (la & _ & _ & ->)]]; [| done |].
    + rewrite Hemit. split; [|done]. exists [], []. cbn [fst]. by rewrite emit_events.
    + rewrite (process_hit_labelled _ _ _ _ _ label); [|done|done].
      rewrite emit_last_play_time, lookup_insert_ne by done.
      apply Qltb_false in Hcd. cbn [cooldown emit]. rewrite Hcd.
      cbn [tool_bodies emit]. rewrite (bool_decide_eq_false_2 _ Hat).
      split; [|done]. eexists _, []. cbn [fst].
      rewrite !emit_events. cbn [step_count emit].
      by rewrite <- app_assoc.
Qed.

(** *** One event per object and step *)

Lemma once_each_refl now st : once_each now st st.
Proof.
  exists []. rewrite app_nil_r. split; [done|]. split.
  - intros e He. by apply elem_of_nil in He.
  - intros obj_id. simpl. lia.
Qed.

Lemma once_each_process_hit now hit other st0 st flag :
  (0 < cooldown st)%Q →
  once_each now st0 st →
  once_each now st0 (process_hit now hit other (st, flag)).1.
Proof.
  intros Hpos (new & Hev & Hlast & Hcount).
  destruct (process_hit_cases now hit other st flag)
    as [-> | [(_ & _ & ->) | (label & _ & Hcd & ->)]];
    [by exists new | by exists new |].
  cbn [fst].
  assert (events_of hit new = []) as Hfresh.
  { destruct (events_of hit new) as [|e l] eqn:Hf; [done|]. exfalso.
    assert (e ∈ events_of hit new) as He by (rewrite Hf; left).
    apply list_elem_of_filter in He as [Hid He].
    apply Hlast in He. rewrite Hid in He. rewrite He in Hcd.
    simpl in Hcd. lra. }
  exists (new ++ [Event (step_count st) hit label other
                    (bool_decide (other ∈ tool_bodies st))]).
  split; [by rewrite emit_events, Hev, app_assoc|]. split.
  - intros e He. rewrite emit_last_play_time.
    destruct (decide (ev_object_id e = hit)) as [->|Hne];
      [apply lookup_insert_eq|].
    rewrite lookup_insert_ne by done.
    apply elem_of_app in He as [He|He]; [by apply Hlast|].
    apply list_elem_of_singleton in He. by subst e.
  - intros obj_id. unfold events_of in *. rewrite filter_app, length_app.
    destruct (decide (obj_id = hit)) as [->|Hne].
    + rewrite Hfresh. simpl. rewrite filter_cons. case_decide; simpl; lia.
    + rewrite filter_cons_False by (simpl; congruence).
      rewrite filter_nil. simpl. specialize (Hcount obj_id). lia.
Qed.

Lemma once_each_process_contacts now cps st0 st flag :
  (0 < cooldown st)%Q →
  once_each now st0 st →
  once_each now st0 (process_contacts now (st, flag) cps).1.
Proof.
  revert st flag. induction cps as [|[a b] cps IH]; intros st flag Hpos Hinv;
    [done|].
  unfold process_contacts in *. cbn [foldl].
  assert (∃ st1 f1, process_cp now (st, flag) (a, b) = (st1, f1)
                    ∧ cooldown st1 = cooldown st
                    ∧ once_each now st0 st1) as (st1 & f1 & -> & Hc & Hi).
  { unfold process_cp. cbn [fst]. case_match; [by exists st, flag|].
    destruct (process_hit now a b (st, flag)) as [st1 f1] eqn:E1.
    destruct (process_hit now b a (st1, f1)) as [st2 f2] eqn:E2.
    exists st2, f2.
    pose proof (process_hit_same_config now a b st flag) as (_&C1&_).
    pose proof (process_hit_same_config now b a st1 f1) as (_&C2&_).
    pose proof (once_each_process_hit now a b st0 st flag Hpos Hinv) as I1.
    rewrite E1 in C1, I1. cbn [fst] in C1, I1.
    assert (0 < cooldown st1)%Q as Hpos1 by (by rewrite C1).
    pose proof (once_each_process_hit now b a st0 st1 f1 Hpos1 I1) as I2.
    rewrite E2 in C2, I2. cbn [fst] in C2, I2.
    split; [done|]. split; [congruence|done]. }
  apply IH; [by rewrite Hc | done].
Qed.

(** C10.  With a strictly positive cooldown, one call of [step] appends
    at most one event per object id, however many contact pairs involve
    the object. *)
Theorem step_at_most_one_event_per_object :
  ∀ (Obs : Type) (st : State)
    (env_step : Obs * Q * bool * option (gmap string info_value))
    (now : Q) (cps : list (Z * Z)),
    (0 < cooldown st)%Q →
    ∃ new,
      audio_events (step st env_step now cps).1 = audio_events st ++ new
      ∧ ∀ obj_id, (length (events_of obj_id new) ≤ 1)%nat.
Proof.
  intros Obs st [[[obs reward] done] info] now cps Hpos.
  pose proof (once_each_process_contacts now cps (tick st) (tick st) false
                Hpos (once_each_refl now (tick st))) as (new & Hev & _ & Hc).
  exists new. split; [|done]. unfold step.
  destruct (process_contacts now (tick st, false) cps) as [st' v].
  cbn [fst] in Hev. by destruct (enforce st' v reward done info) as [[[??]?]|].
Qed.

(** *** Embeddings drawn by reset *)

Lemma draw_length dim g : length (draw dim g) = dim.
Proof. unfold draw, astype_float32. by rewrite length_fmap, normal_size. Qed.

Lemma nth_state_S dim g n :
  nth_state dim g (S n) = nth_state dim (advance dim g) n.
Proof. unfold nth_state. by rewrite Nat.iter_succ_r. Qed.


Lemma dict_get_None {V} (d : list (Z * V)) k : k ∉ d.*1 → dict_get d k = None.
Proof.
  induction d as [|[k' v] d IH]; [done|]. simpl. intros Hk.
  apply not_elem_of_cons in Hk as [Hne Hk]. case_decide; [congruence|auto].
Qed.

Lemma dict_get_Some {V} (d : list (Z * V)) k v :
  dict_get d k = Some v → (k, v) ∈ d.
Proof.
  induction d as [|[k' v'] d IH]; [done|]. simpl.
  case_decide; [intros [= <-]; subst; left | intros ?; right; auto].
Qed.

Lemma labelled_ids_elem items k :
  k ∈ labelled_ids items ↔ ∃ label, (k, Some label) ∈ items.
Proof.
  unfold labelled_ids. rewrite list_elem_of_omap. split.
  - intros ([k' [l|]] & Hin & Heq); simpl in Heq; [|done].
    injection Heq as ->. by exists l.
  - intros (l & Hin). by exists (k, Some l).
Qed.

Lemma labelled_ids_NoDup items : dict_wf items → NoDup (labelled_ids items).
Proof.
  unfold dict_wf. induction items as [|[k [l|]] items IH]; simpl;
    intros Hnd; [constructor| |]; apply NoDup_cons in Hnd as [Hk Hnd].
  - change (labelled_ids ((k, Some l) :: items)) with (k :: labelled_ids items).
    constructor; [|auto]. rewrite labelled_ids_elem. intros (l' & Hin).
    apply Hk. apply list_elem_of_fmap. by exists (k, Some l').
  - change (labelled_ids ((k, None) :: items)) with (labelled_ids items). auto.
Qed.

Lemma dict_get_labelled items k :
  dict_wf items →
  k ∈ labelled_ids items ↔ ∃ label, dict_get items k = Some (Some label).
Proof.
  intros Hwf. rewrite labelled_ids_elem. split; intros (l & Hl); exists l;
    [|by apply dict_get_Some].
  revert Hwf Hl. unfold dict_wf.
  induction items as [|[k' v'] items IH]; intros Hnd Hin;
    [by apply elem_of_nil in Hin|].
  simpl in *. apply NoDup_cons in Hnd as [Hk Hnd].
  apply elem_of_cons in Hin as [[= <- <-]|Hin]; [by rewrite decide_True|].
  rewrite decide_False; [auto|]. intros ->. apply Hk.
  apply list_elem_of_fmap. by exists (k, Some l).
Qed.

(** What the loop of [reset] computes: the i-th labelled id receives the
    i-th vector of the stream, other ids keep what they had, and the
    generator has advanced by the number of labelled ids. *)
Lemma draw_embeddings_spec dim items g emb :
  NoDup (labelled_ids items) →
  (draw_embeddings dim items g emb).2
  = nth_state dim g (length (labelled_ids items))
  ∧ (∀ i k, labelled_ids items !! i = Some k →
       (draw_embeddings dim items g emb).1 !! k = Some (nth_draw dim g i))
  ∧ (∀ k, k ∉ labelled_ids items →
       (draw_embeddings dim items g emb).1 !! k = emb !! k).
Proof.
  revert g emb. induction items as [|[k0 [l|]] items IH]; intros g emb Hnd.
  - split; [done|]. split; [|done]. intros i k Hi. by destruct i.
  - change (labelled_ids ((k0, Some l) :: items))
      with (k0 :: labelled_ids items) in *.
    apply NoDup_cons in Hnd as [Hk0 Hnd]. cbn [draw_embeddings].
    destruct (normal g dim) as [v g1] eqn:Hn.
    assert (g1 = advance dim g) as -> by (unfold advance; by rewrite Hn).
    assert (astype_float32 v = draw dim g) as -> by (unfold draw; by rewrite Hn).
    destruct (IH (advance dim g) (<[k0 := draw dim g]> emb) Hnd)
      as (Hg & Hin & Hout).
    split; [|split].
    + by rewrite Hg, length_cons, nth_state_S.
    + intros [|i] k Hi.
      * injection Hi as <-. rewrite Hout by done. apply lookup_insert_eq.
      * rewrite (Hin i k Hi). unfold nth_draw. by rewrite nth_state_S.
    + intros k Hk. apply not_elem_of_cons in Hk as [Hne Hk].
      rewrite Hout by done. by rewrite lookup_insert_ne.
  - change (labelled_ids ((k0, None) :: items)) with (labelled_ids items) in *.
    apply (IH g emb Hnd).
Qed.

(** *** Invariants of reachable states *)

Lemma step_state {Obs : Type} st
    (env_step : Obs * Q * bool * option (gmap string info_value)) now cps :
  (step st env_step now cps).1
  = (process_contacts now (tick st, false) cps).1.
Proof.
  destruct env_step as [[[obs reward] done] info]. unfold step.
  destruct (process_contacts now (tick st, false) cps) as [st' v].
  by destruct (enforce st' v reward done info) as [[[??]?]|].
Qed.

(** [step] neither draws from the generator nor touches the identity
    map or the embeddings. *)
Lemma step_keeps_identity {Obs : Type} st
    (env_step : Obs * Q * bool * option (gmap string info_value)) now cps :
  let st' := (step st env_step now cps).1 in
  object_sound_map st' = object_sound_map st
  ∧ emb_dim st' = emb_dim st
  ∧ rng st' = rng st
  ∧ audio_obj_emb st' = audio_obj_emb st.
Proof.
  cbn zeta. rewrite step_state.
  pose proof (process_contacts_same_config now cps (tick st) false)
    as (?&?&?&?&?&?&?&?&?&?).
  by repeat split.
Qed.

Lemma reset_keeps_config {Obs : Type} st (env_reset : Obs) :
  object_sound_map (reset st env_reset).1 = object_sound_map st
  ∧ emb_dim (reset st env_reset).1 = emb_dim st
  ∧ rng (reset st env_reset).1
    = (draw_embeddings (emb_dim st) (object_sound_map st) (rng st) ∅).2
  ∧ audio_obj_emb (reset st env_reset).1
    = (draw_embeddings (emb_dim st) (object_sound_map st) (rng st) ∅).1.
Proof.
  unfold reset. by destruct (draw_embeddings _ _ _ _) as [emb g].
Qed.

(** The embedding map after [reset], entry by entry. *)
Lemma reset_embedding_lookup {Obs : Type} st (env_reset : Obs) :
  dict_wf (object_sound_map st) →
  ∀ k, audio_obj_emb (reset st env_reset).1 !! k
       = match dict_get (object_sound_map st) k with
         | Some (Some _) =>
             audio_obj_emb (reset st env_reset).1 !! k
         | _ => None
         end
       ∧ (k ∈ labelled_ids (object_sound_map st) →
          ∃ i, labelled_ids (object_sound_map st) !! i = Some k
               ∧ audio_obj_emb (reset st env_reset).1 !! k
                 = Some (nth_draw (emb_dim st) (rng st) i)).
Proof.
  intros Hwf k.
  destruct (reset_keeps_config st env_reset) as (_ & _ & _ & ->).
  destruct (draw_embeddings_spec (emb_dim st) (object_sound_map st) (rng st) ∅
              (labelled_ids_NoDup _ Hwf)) as (_ & Hin & Hout).
  split.
  - destruct (dict_get (object_sound_map st) k) as [[l|]|] eqn:Hget; [done| |].
    + rewrite Hout; [apply lookup_empty|].
      rewrite dict_get_labelled by done. intros (l & Hl). congruence.
    + rewrite Hout; [apply lookup_empty|].
      rewrite dict_get_labelled by done. intros (l & Hl). congruence.
  - intros Hk. apply list_elem_of_lookup in Hk as [i Hi]. exists i.
    split; [done|]. by apply Hin.
Qed.

Lemma reachable_identity_inv st : reachable st → identity_inv st.
Proof.
  induction 1 as [m cd dbg ign tools term pen st Hwf Hinit
                 | Obs st env_reset _ (Hwf & Hdim & Hemb)
                 | Obs st env_step now cps _ (Hwf & Hdim & Hemb)].
  - injection Hinit as <-. split; [done|]. split; [done|].
    intros k v Hk. cbn in Hk. by rewrite lookup_empty in Hk.
  - destruct (reset_keeps_config st env_reset) as (Hm & Hd & _ & _).
    unfold identity_inv. rewrite Hm, Hd. split; [done|]. split; [done|].
    intros k v Hk.
    destruct (reset_embedding_lookup st env_reset Hwf k) as [Hcase Hdraw].
    rewrite Hk in Hcase.
    destruct (dict_get (object_sound_map st) k) as [[l|]|] eqn:Hget;
      [|done|done].
    split; [|by exists l].
    destruct Hdraw as (i & _ & Hi).
    { apply dict_get_labelled; [done|by exists l]. }
    rewrite Hk in Hi. injection Hi as ->.
    unfold nth_draw. by rewrite draw_length.
  - destruct (step_keeps_identity st env_step now cps) as (Hm & Hd & _ & He).
    unfold identity_inv. by rewrite Hm, Hd, He.
Qed.

(** C4.  After [reset] on a wrapper built from an identity dict, every
    id with a label has an embedding, a vector of [emb_dim = 128]
    samples, and every id that is silent, or not in the identity map,
    has none. *)
Theorem reset_embeddings_exactly_for_labelled :
  ∀ (Obs : Type) (st : State) (env_reset : Obs),
    reachable st →
    let st' := (reset st env_reset).1 in
    emb_dim st' = 128%nat
    ∧ (∀ obj_id label,
         dict_get (object_sound_map st') obj_id = Some (Some label) →
         ∃ v, audio_obj_emb st' !! obj_id = Some v
              ∧ length v = emb_dim st')
    ∧ (∀ obj_id,
         dict_get (object_sound_map st') obj_id = Some None →
         audio_obj_emb st' !! obj_id = None)
    ∧ (∀ obj_id,
         dict_get (object_sound_map st') obj_id = None →
         audio_obj_emb st' !! obj_id = None).
Proof.
  intros Obs st env_reset Hreach st'.
  destruct (reachable_identity_inv st Hreach) as (Hwf & Hdim & _).
  destruct (reset_keeps_config st env_reset) as (Hm & Hd & _ & _).
  subst st'. rewrite Hm, Hd. split; [done|].
  split; [|split]; intros k.
  - intros label Hget.
    destruct (reset_embedding_lookup st env_reset Hwf k) as [_ Hdraw].
    destruct Hdraw as (i & _ & Hi).
    { apply dict_get_labelled; [done|by exists label]. }
    eexists. split; [exact Hi|]. unfold nth_draw. by rewrite draw_length.
  - intros Hget.
    destruct (reset_embedding_lookup st env_reset Hwf k) as [Hcase _].
    by rewrite Hget in Hcase.
  - intros Hget.
    destruct (reset_embedding_lookup st env_reset Hwf k) as [Hcase _].
    by rewrite Hget in Hcase.
Qed.

(** *** The generator across episodes *)






(** *** The violation policy *)

Lemma process_hit_flag now hit other st flag :
  (process_hit now hit other (st, flag)).2
  = flag || (is_silent st hit && bool_decide (other ∈ tool_bodies st)).
Proof.
  unfold process_hit, is_silent.
  destruct (dict_get (object_sound_map st) hit) as [[label|]|];
    cbn [andb]; [| |by rewrite orb_false_r].
  - repeat case_match; by rewrite orb_false_r.
  - destruct (bool_decide (other ∈ tool_bodies st)); cbn [negb orb andb snd].
    + by rewrite orb_true_r.
    + case_match; by rewrite orb_false_r.
Qed.

Lemma is_silent_same_config st st' hit :
  same_config st st' → is_silent st' hit = is_silent st hit.
Proof. intros (Hm & _). unfold is_silent. by rewrite Hm. Qed.

Lemma process_cp_flag now st flag cp :
  (process_cp now (st, flag) cp).2 = flag || silent_touch_pair st cp.
Proof.
  destruct cp as [a b]. unfold process_cp, silent_touch_pair. cbn [fst snd].
  destruct (decide (a ∈ ignore_bodies st)) as [Ha|Ha].
  { rewrite (bool_decide_eq_true_2 _ Ha), (bool_decide_eq_false_2 (a ∉ _));
      [by rewrite orb_false_r | by intros ?]. }
  destruct (decide (b ∈ ignore_bodies st)) as [Hb|Hb].
  { rewrite (bool_decide_eq_false_2 _ Ha), (bool_decide_eq_true_2 _ Hb),
      (bool_decide_eq_false_2 (b ∉ _)); [|by intros ?].
    by rewrite andb_false_r, orb_false_r. }
  rewrite (bool_decide_eq_false_2 _ Ha), (bool_decide_eq_false_2 _ Hb),
    (bool_decide_eq_true_2 (a ∉ _) Ha), (bool_decide_eq_true_2 (b ∉ _) Hb).
  cbn [orb andb].
  destruct (process_hit now a b (st, flag)) as [st1 f1] eqn:E1.
  pose proof (process_hit_flag now a b st flag) as F1.
  pose proof (process_hit_same_config now a b st flag) as C1.
  rewrite E1 in F1, C1. cbn [fst snd] in F1, C1.
  rewrite process_hit_flag, (is_silent_same_config st st1 b C1), F1.
  destruct C1 as (_ & _ & _ & -> & _). by rewrite orb_assoc.
Qed.

Lemma process_contacts_flag now cps st flag :
  (process_contacts now (st, flag) cps).2
  = flag || existsb (silent_touch_pair st) cps.
Proof.
  revert st flag. induction cps as [|cp cps IH]; intros st flag.
  - by rewrite orb_false_r.
  - unfold process_contacts in *. cbn [foldl existsb].
    destruct (process_cp now (st, flag) cp) as [st1 f1] eqn:E1.
    pose proof (process_cp_flag now st flag cp) as F1.
    pose proof (process_cp_same_config now cp st flag) as C1.
    rewrite E1 in F1, C1. cbn [fst snd] in F1, C1.
    rewrite IH, F1, <- orb_assoc. f_equal. f_equal.
    assert (∀ c, silent_touch_pair st1 c = silent_touch_pair st c) as Hsame.
    { intros c. unfold silent_touch_pair.
      rewrite !(is_silent_same_config st st1) by done.
      by destruct C1 as (_ & _ & -> & -> & _). }
    clear -Hsame. induction cps as [|c cps IHc]; [done|].
    cbn [existsb]. by rewrite Hsame, IHc.
Qed.

Lemma silent_touch_existsb st cps :
  existsb (silent_touch_pair st) cps = true ↔ silent_touch st cps.
Proof.
  unfold silent_touch. rewrite existsb_exists.
  split; intros (cp & Hin & Ht); exists cp; split; try done;
    by apply list_elem_of_In.
Qed.

Lemma tick_silent_touch st cps :
  existsb (silent_touch_pair (tick st)) cps
  = existsb (silent_touch_pair st) cps.
Proof. reflexivity. Qed.

(** The flag [silent_violation] at the end of the loop of [step]. *)
Lemma step_violation_flag now cps st :
  (process_contacts now (tick st, false) cps).2
  = existsb (silent_touch_pair st) cps.
Proof. by rewrite process_contacts_flag, tick_silent_touch. Qed.

Lemma enforce_after_contacts now cps st reward done info :
  enforce (process_contacts now (tick st, false) cps).1
    (process_contacts now (tick st, false) cps).2 reward done info
  = if forced st cps done then
      match info with
      | None => Raise TypeError
      | Some d =>
          Ok (silent_penalty st, true,
              Some (<["terminated_reason" :=
                      VStr "touched_silent_object_with_tool"]> d))
      end
    else Ok (reward, done, info).
Proof.
  unfold enforce, forced. rewrite step_violation_flag.
  by pose proof (process_contacts_same_config now cps (tick st) false)
    as (_ & _ & _ & _ & -> & -> & _).
Qed.

(** [step] unfolded: the state after the loop, and the returned tuple
    unless [dict(None)] raised. *)
Lemma step_unfold {Obs : Type} st (obs : Obs) reward done info now cps :
  step st (obs, reward, done, info) now cps
  = let st' := (process_contacts now (tick st, false) cps).1 in
    if forced st cps done then
      match info with
      | None => (st', Raise TypeError)
      | Some d =>
          (st', Ok (obs, silent_penalty st, true,
                    expose st' (Some (<["terminated_reason" :=
                       VStr "touched_silent_object_with_tool"]> d))))
      end
    else (st', Ok (obs, reward, done, expose st' info)).
Proof.
  unfold step.
  pose proof (enforce_after_contacts now cps st reward done info) as He.
  destruct (process_contacts now (tick st, false) cps) as [st' v].
  cbn [fst snd] in *. rewrite He.
  destruct (forced st cps done); [by destruct info|done].
Qed.

Lemma expose_lookup_other st info k :
  k ∉ audio_keys →
  expose st info !! k = (default ∅ info) !! k.
Proof.
  unfold audio_keys, expose. intros Hk.
  rewrite !lookup_insert_ne by set_solver. by destruct info.
Qed.

Lemma expose_lookup_audio st info :
  expose st info !! "audio_events" = Some (VEvents (audio_events st))
  ∧ expose st info !! "audio_identity"
    = Some (VIdentity (object_sound_map st))
  ∧ expose st info !! "audio_obj_emb"
    = Some (VEmb (tolist <$> audio_obj_emb st))
  ∧ expose st info !! "audio_emb_dim" = Some (VInt (Z.of_nat (emb_dim st))).
Proof. unfold expose. repeat split; by simplify_map_eq. Qed.

Lemma expose_dom st info :
  dom (expose st info) = dom (default ∅ info) ∪ audio_keys.
Proof.
  unfold audio_keys, expose. rewrite !dom_insert_L.
  destruct info; set_solver.
Qed.

(** When the simulator's info is a dict, a silent touch with the policy
    enabled ends the episode with the penalty and the reason; when the
    simulator reports done itself, reward and reason are the
    simulator's. *)
Lemma step_silent_touch_terminates {Obs : Type} st (obs : Obs) reward d
    now cps :
  terminate_on_silent_touch st = true →
  silent_touch st cps →
  ∃ info',
    (step st (obs, reward, false, Some d) now cps).2
    = Ok (obs, silent_penalty st, true, info')
    ∧ info' !! "terminated_reason"
      = Some (VStr "touched_silent_object_with_tool").
Proof.
  intros Hterm Htouch. rewrite step_unfold. cbn zeta. unfold forced.
  apply silent_touch_existsb in Htouch. rewrite Hterm, Htouch. cbn [andb negb snd].
  eexists. split; [done|].
  rewrite expose_lookup_other by (unfold audio_keys; set_solver).
  apply lookup_insert_eq.
Qed.

Lemma step_done_not_overridden {Obs : Type} st (obs : Obs) reward info
    now cps :
  ∃ info',
    (step st (obs, reward, true, info) now cps).2
    = Ok (obs, reward, true, info')
    ∧ info' !! "terminated_reason"
      = (default ∅ info) !! "terminated_reason".
Proof.
  rewrite step_unfold. cbn zeta. unfold forced.
  rewrite andb_false_r. eexists. split; [done|].
  apply expose_lookup_other. unfold audio_keys. set_solver.
Qed.

(** The frame of [step] on [info], for every call that returns: the
    four audio keys hold the wrapper's data, the termination reason is
    written exactly when the policy forces termination, every other key
    is as the simulator gave it, and the observation is passed on.  The
    call returns unless the policy forces termination on an [info] that
    is [None]. *)
Lemma step_info_frame {Obs : Type} st (obs : Obs) reward done info now cps :
  reachable st →
  (forced st cps done = true → info ≠ None) →
  let st' := (step st (obs, reward, done, info) now cps).1 in
  ∃ reward' done' info',
    (step st (obs, reward, done, info) now cps).2
    = Ok (obs, reward', done', info')
    ∧ info' !! "audio_events" = Some (VEvents (audio_events st'))
    ∧ info' !! "audio_identity" = Some (VIdentity (object_sound_map st))
    ∧ (∃ emb, info' !! "audio_obj_emb" = Some (VEmb emb)
         ∧ ∀ k, is_Some (emb !! k) →
             ∃ label, dict_get (object_sound_map st) k = Some (Some label))
    ∧ info' !! "audio_emb_dim" = Some (VInt 128)
    ∧ info' !! "terminated_reason"
      = (if forced st cps done
         then Some (VStr "touched_silent_object_with_tool")
         else default ∅ info !! "terminated_reason")
    ∧ (∀ k, k ∉ audio_keys → k ≠ "terminated_reason" →
         info' !! k = default ∅ info !! k)
    ∧ dom info'
      = dom (default ∅ info) ∪ audio_keys
        ∪ (if forced st cps done then {["terminated_reason"]} else ∅).
Proof.
  intros Hreach Hinfo st'.
  destruct (reachable_identity_inv st Hreach) as (Hwf & Hdim & Hemb).
  pose proof (process_contacts_same_config now cps (tick st) false)
    as (Hm & _ & _ & _ & _ & _ & _ & Hd & _ & He).
  subst st'. rewrite step_unfold. cbn zeta.
  set (st' := (process_contacts now (tick st, false) cps).1) in *.
  assert (∃ reward' done' info0,
    (if forced st cps done
     then match info with
          | Some d =>
              (st', Ok (obs, silent_penalty st, true,
                 expose st' (Some (<["terminated_reason" :=
                   VStr "touched_silent_object_with_tool"]> d))))
          | None => (st', Raise TypeError)
          end
     else (st', Ok (obs, reward, done, expose st' info)))
    = (st', Ok (obs, reward', done', expose st' info0))
    ∧ default ∅ info0
      = if forced st cps done
        then <["terminated_reason" :=
               VStr "touched_silent_object_with_tool"]> (default ∅ info)
        else default ∅ info) as (reward' & done' & info0 & -> & Hinfo0).
  { destruct (forced st cps done).
    - destruct info as [d|]; [|by destruct Hinfo]. by eexists _, _, _.
    - by eexists _, _, _. }
  exists reward', done', (expose st' info0). cbn [fst snd].
  destruct (expose_lookup_audio st' info0) as (Kev & Kid & Kemb & Kdim).
  split; [done|]. split; [done|]. split; [by rewrite Kid, Hm|].
  split; [|split; [|split; [|split]]].
  - eexists. split; [exact Kemb|]. intros k Hk.
    rewrite He in Hk. cbn [tick audio_obj_emb] in Hk.
    unfold tolist in Hk. rewrite lookup_fmap in Hk.
    destruct (audio_obj_emb st !! k) as [v|] eqn:Hv; [|by destruct Hk].
    by destruct (Hemb k v Hv).
  - rewrite Kdim, Hd. cbn [tick emb_dim]. by rewrite Hdim.
  - rewrite expose_lookup_other by (unfold audio_keys; set_solver).
    rewrite Hinfo0. destruct (forced st cps done); [|done].
    apply lookup_insert_eq.
  - intros k Hk Hne. rewrite expose_lookup_other by done.
    rewrite Hinfo0. destruct (forced st cps done); [|done].
    by rewrite lookup_insert_ne.
  - rewrite expose_dom, Hinfo0.
    destruct (forced st cps done); [|set_solver].
    rewrite dom_insert_L. set_solver.
Qed.

(** *** Construction *)

(** C5 (amended).  [__init__] validates nothing: it succeeds on every
    configuration, also when an id of the identity map is in the
    ignore-set or the tool-set, and stores the three collections as
    they were given. *)
Theorem init_never_rejects :
  ∀ (m : list (Z * option string)) (cd : Q) (dbg : bool)
    (ign tools : option (list Z)) (term : bool) (pen : Q),
    ∃ st,
      __init__ m cd dbg ign tools term pen = Ok st
      ∧ object_sound_map st = m
      ∧ ignore_bodies st = set_or_empty ign
      ∧ tool_bodies st = set_or_empty tools.
Proof. intros. eexists. by repeat split. Qed.

(** *** Reset *)

(** C9.  After [reset] the event log is empty and no object has a
    recorded last play time, whatever the state before. *)
Theorem reset_clears_events_and_cooldown :
  ∀ (Obs : Type) (st : State) (env_reset : Obs),
    audio_events (reset st env_reset).1 = []
    ∧ last_play_time (reset st env_reset).1 = ∅
    ∧ ∀ obj_id : Z, last_play_time (reset st env_reset).1 !! obj_id = None.
Proof.
  intros Obs st env_reset. unfold reset.
  destruct (draw_embeddings _ _ _ _) as [emb g]. simpl.
  split; [done|]. split; [done|]. intros. apply lookup_empty.
Qed.

End Properties.

(** ** The wrapper on concrete inputs *)

Lemma demo_reachable : reachable demo.
Proof.
  apply (reach_init demo_map default_cooldown false (Some [0; 1]) (Some [9])
           true default_silent_penalty demo); [|reflexivity].
  unfold dict_wf. apply (bool_decide_unpack _). by vm_compute.
Defined.

(** The scenario of the cooldown: the tool touches body 7 at 1000.0 s,
    1000.1 s and 1000.3 s; the second contact is suppressed. *)
Example cooldown_scenario :
  let st1 := (step (solo default_cooldown) quiet 1000 [(3, 7)]).1 in
  let st2 := (step st1 quiet (10001 # 10) [(3, 7)]).1 in
  let st3 := (step st2 quiet (10003 # 10) [(3, 7)]).1 in
  audio_events st1 = [Event 1 7 "tingting" 3 true]
  ∧ audio_events st2 = [Event 1 7 "tingting" 3 true]
  ∧ audio_events st3
    = [Event 1 7 "tingting" 3 true; Event 3 7 "tingting" 3 true].
Proof. by vm_compute. Qed.

(** C1.  The failing input: the policy is enabled, the tool 9 touches
    the silent body 5, the simulator did not report done and returned
    [None] for info.  [dict(info)] raises [TypeError] and no tuple is
    returned, although the same call without the contact returns one:
    the [None] case is handled for the audio keys only. *)
Theorem silent_touch_without_info_raises :
  terminate_on_silent_touch demo = true
  ∧ silent_touch_pair demo (9, 5) = true
  ∧ (step demo quiet_no_info 100 [(9, 5)]).2 = Raise TypeError
  ∧ (∃ info', (step demo quiet_no_info 100 []).2 = Ok (tt, 0%Q, false, info')).
Proof. repeat split; try by vm_compute. eexists. by vm_compute. Qed.

(** C6.  Whenever the policy forces termination and the simulator's
    info is [None], [step] raises [TypeError]: there is no returned
    info, hence none with the audio keys and the termination reason. *)
Theorem forced_termination_without_info_returns_nothing :
  ∀ (Obs : Type) (st : State) (obs : Obs) (reward : Q) (done : bool)
    (now : Q) (cps : list (Z * Z)),
    forced st cps done = true →
    (step st (obs, reward, done, None) now cps).2 = Raise TypeError.
Proof.
  intros Obs st obs reward done now cps Hforced.
  rewrite step_unfold. cbn zeta. by rewrite Hforced.
Qed.

Lemma forced_termination_without_info_returns_nothing_witness :
  forced demo [(6, 7); (5, 9)] false = true
  ∧ (step demo (tt, 1%Q, false, None) 100 [(6, 7); (5, 9)]).2
    = Raise TypeError.
Proof.
  split; [by vm_compute|].
  apply (forced_termination_without_info_returns_nothing
           unit demo tt 1%Q false 100%Q [(6, 7); (5, 9)]).
  by vm_compute.
Defined.

(** C2, as stated, fails.  Body 7 has no prior emission, yet with the
    clock at 0.0 and the default cooldown the tool's contact is
    suppressed: the missing last play time counts as 0.0.  The same
    happens at a clock reading of 1.76e9 s with a cooldown of 2e9 s.
    And with a cooldown of zero, a contact at 3.0 after an emission at
    5.0 is suppressed. *)
Lemma first_emission_and_zero_cooldown_suppressed :
  (last_play_time (solo default_cooldown) !! 7 = None
   ∧ process_hit 0 7 3 (solo default_cooldown, false)
     = (solo default_cooldown, false)
   ∧ audio_events (step (solo default_cooldown) quiet 0 [(3, 7)]).1 = [])
  ∧ (last_play_time (solo 2000000000) !! 7 = None
     ∧ audio_events (step (solo 2000000000) quiet 1760000000 [(3, 7)]).1
       = [])
  ∧ (let st1 := (step (solo 0) quiet 5 [(3, 7)]).1 in
     audio_events st1 = [Event 1 7 "tingting" 3 true]
     ∧ (last_play_time st1 !! 7) = Some 5%Q
     ∧ audio_events (step st1 quiet 3 [(3, 7)]).1 = audio_events st1).
Proof. repeat split; by vm_compute. Qed.

Lemma cooldown_gate_witness :
  dict_get (object_sound_map demo) 6 = Some (Some "tingting")
  ∧ (9 ∉ ignore_bodies demo)
  ∧ audio_events (process_hit 100 6 9 (demo, false)).1
    = audio_events demo ++ [Event (step_count demo) 6 "tingting" 9 true]
  ∧ last_play_time (process_hit 100 6 9 (demo, false)).1 !! 6 = Some 100%Q.
Proof.
  assert (dict_get (object_sound_map demo) 6 = Some (Some "tingting"))
    as Hget by reflexivity.
  assert (9 ∉ ignore_bodies demo) as Hother
    by (apply (bool_decide_unpack _); by vm_compute).
  split; [exact Hget|]. split; [exact Hother|].
  destruct (cooldown_gate demo false 100 6 9 "tingting" Hget Hother)
    as [[_ Hemit] _].
  apply Hemit. by vm_compute.
Defined.

Lemma ignored_pair_no_event_no_violation_witness :
  (0 ∈ ignore_bodies demo ∨ 6 ∈ ignore_bodies demo)
  ∧ process_cp 100 (demo, false) (0, 6) = (demo, false)
  ∧ step demo quiet 100 ([(9, 6)] ++ (0, 6) :: [(6, 7)])
    = step demo quiet 100 ([(9, 6)] ++ [(6, 7)]).
Proof.
  assert (0 ∈ ignore_bodies demo ∨ 6 ∈ ignore_bodies demo) as Hign
    by (left; apply (bool_decide_unpack _); by vm_compute).
  destruct (ignored_pair_no_event_no_violation demo false 100 0 6 Hign)
    as [Hcp Hstep].
  split; [exact Hign|]. split; [exact Hcp|]. apply Hstep.
Defined.

Lemma reset_embeddings_exactly_for_labelled_witness :
  reachable demo
  ∧ (∃ v, audio_obj_emb (reset demo tt).1 !! 6 = Some v
          ∧ length v = 128%nat)
  ∧ audio_obj_emb (reset demo tt).1 !! 5 = None.
Proof.
  split; [exact demo_reachable|].
  destruct (reset_embeddings_exactly_for_labelled unit demo tt demo_reachable)
    as (Hdim & Hlab & Hsil & _).
  split.
  - destruct (Hlab 6 "tingting") as (v & Hv & Hlen); [reflexivity|].
    exists v. split; [exact Hv|]. by rewrite Hlen, Hdim.
  - apply Hsil. reflexivity.
Defined.

(** C5, as stated, fails.  Body 1 of the identity map is in the
    ignore-set and body 2 is in the tool-set, and [__init__] returns
    the wrapper. *)
Lemma init_accepts_colliding_ids :
  collides [(1, Some "thud"); (2, None)] (Some [1]) (Some [2])
  ∧ 1 ∈ set_or_empty (Some [1])
  ∧ 2 ∈ set_or_empty (Some [2])
  ∧ __init__ [(1, Some "thud"); (2, None)] (1 # 4) false
      (Some [1]) (Some [2]) true ((-1) # 1)
    = Ok (init_state [(1, Some "thud"); (2, None)] (1 # 4) false
            (Some [1]) (Some [2]) true ((-1) # 1)).
Proof.
  assert (1 ∈ set_or_empty (Some [1])) as H1
    by (apply (bool_decide_unpack _); by vm_compute).
  assert (2 ∈ set_or_empty (Some [2])) as H2
    by (apply (bool_decide_unpack _); by vm_compute).
  split; [|by repeat split].
  exists 1. split; [|by left]. apply (bool_decide_unpack _). by vm_compute.
Qed.



(** That the two stream vectors of a labelled id differ is a property
    of the generator, which its interface does not give: on a generator
    of two states, id 6 of [demo_map] receives the same vector in the
    next episode. *)
Lemma two_state_generator_repeats_embedding :
  audio_obj_emb (reset flip_demo tt).1 !! 6 = Some (replicate 128 0%Q)
  ∧ audio_obj_emb (reset (reset flip_demo tt).1 tt).1 !! 6
    = Some (replicate 128 0%Q).
Proof. split; by vm_compute. Qed.

Lemma step_at_most_one_event_per_object_witness :
  (0 < cooldown demo)%Q
  ∧ ∃ new,
      audio_events
        (step demo quiet 100 [(9, 6); (6, 7); (6, 9); (7, 6)]).1
      = audio_events demo ++ new
      ∧ ∀ obj_id, (length (events_of obj_id new) ≤ 1)%nat.
Proof.
  assert (0 < cooldown demo)%Q as Hpos by reflexivity.
  split; [exact Hpos|].
  apply (step_at_most_one_event_per_object unit demo quiet 100
           [(9, 6); (6, 7); (6, 9); (7, 6)] Hpos).
Defined.

(** ** Further properties of the wrapper *)

Section MoreProperties.
Context `{NumpyRng}.

(** Induction over the loop of [step]: a property of the state that
    every emission keeps holds after the loop. *)
Lemma process_contacts_emit_ind (P : State → Prop) now cps0 :
  (∀ st hit other label,
     P st →
     dict_get (object_sound_map st) hit = Some (Some label) →
     hit ∉ ignore_bodies st → other ∉ ignore_bodies st →
     (cooldown st <= now - default 0%Q (last_play_time st !! hit))%Q →
     (hit, other) ∈ cps0 ∨ (other, hit) ∈ cps0 →
     P (emit st now hit other label (bool_decide (other ∈ tool_bodies st)))) →
  ∀ cps st flag,
    cps ⊆ cps0 → P st → P (process_contacts now (st, flag) cps).1.
Proof.
  intros Hemit cps. induction cps as [|[a b] cps IH]; intros st flag Hsub HP;
    [done|].
  assert ((a, b) ∈ cps0) as Hab by (apply Hsub; left).
  assert (cps ⊆ cps0) as Hsub' by (intros x Hx; apply Hsub; by right).
  unfold process_contacts in *. cbn [foldl].
  destruct (process_cp now (st, flag) (a, b)) as [st2 f2] eqn:E.
  apply IH; [done|]. revert E. unfold process_cp. cbn [fst].
  destruct (decide (a ∈ ignore_bodies st)) as [Ha|Ha].
  { rewrite (bool_decide_eq_true_2 _ Ha). by intros [= <- _]. }
  destruct (decide (b ∈ ignore_bodies st)) as [Hb|Hb].
  { rewrite (bool_decide_eq_true_2 _ Hb), orb_true_r. by intros [= <- _]. }
  rewrite (bool_decide_eq_false_2 _ Ha), (bool_decide_eq_false_2 _ Hb).
  cbn [orb].
  assert (∃ st1 f1, process_hit now a b (st, flag) = (st1, f1)
                    ∧ P st1 ∧ ignore_bodies st1 = ignore_bodies st)
    as (st1 & f1 & -> & HP1 & Hig).
  { destruct (process_hit_cases now a b st flag)
      as [-> | [(_ & _ & ->) | (label & Hget & Hcd & ->)]];
      eexists _, _; (split; [done|]); (split; [|done]); try done.
    apply Hemit; auto. }
  intros E.
  destruct (process_hit_cases now b a st1 f1)
    as [E1 | [(_ & _ & E1) | (label & Hget & Hcd & E1)]];
    rewrite E1 in E; injection E as <- _; try done.
  apply Hemit; auto; by rewrite Hig.
Qed.

Lemma step_trace_refl now cps st : step_trace now cps st st.
Proof.
  exists []. rewrite !app_nil_r. split; [done|].
  split; [apply same_config_refl|]. split; [constructor|]. split; [done|].
  intros id. rewrite bool_decide_eq_false_2; [done|]. apply not_elem_of_nil.
Qed.

Lemma step_trace_emit now cps st0 st hit other label :
  step_trace now cps st0 st →
  dict_get (object_sound_map st) hit = Some (Some label) →
  hit ∉ ignore_bodies st → other ∉ ignore_bodies st →
  (hit, other) ∈ cps ∨ (other, hit) ∈ cps →
  step_trace now cps st0
    (emit st now hit other label (bool_decide (other ∈ tool_bodies st))).
Proof.
  intros (new & Hev & Hcfg & Hok & Hsp & Hlast) Hget Hhit Hother Hcp.
  pose proof Hcfg as (Hm & _ & Hig & Htl & _ & _ & Hsc & _).
  exists (new ++ [Event (step_count st) hit label other
                    (bool_decide (other ∈ tool_bodies st))]).
  split; [by rewrite emit_events, Hev, app_assoc|].
  split; [exact (same_config_trans _ _ _ Hcfg (emit_same_config _ _ _ _ _ _))|].
  split; [|split].
  - apply Forall_app. split; [done|]. constructor; [|constructor].
    unfold event_ok. cbn [ev_step ev_object_id ev_sound ev_other_body
                            ev_tool_touch].
    by rewrite <- Hm, <- Hig, <- Htl, Hsc.
  - cbn [spawned emit]. unfold wavs_of in *. rewrite omap_app, Hsp.
    unfold play. simpl omap.
    destruct (sound_bank label); by rewrite ?app_nil_r, ?app_assoc.
  - intros id. rewrite emit_last_play_time, fmap_app. cbn [fmap list_fmap].
    cbn [ev_object_id]. destruct (decide (id = hit)) as [->|Hne].
    + rewrite lookup_insert_eq, bool_decide_eq_true_2; [done|].
      apply elem_of_app. right. left.
    + rewrite lookup_insert_ne by done. rewrite Hlast.
      destruct (decide (id ∈ ev_object_id <$> new)) as [Hin|Hin].
      * rewrite (bool_decide_eq_true_2 _ Hin).
        rewrite bool_decide_eq_true_2; [done|]. apply elem_of_app. by left.
      * rewrite (bool_decide_eq_false_2 _ Hin).
        rewrite bool_decide_eq_false_2; [done|].
        rewrite elem_of_app, list_elem_of_singleton. by intros [?|?].
Qed.

(** The loop of [step], from the state after the step counter was
    incremented. *)
Lemma step_trace_loop now cps st flag :
  step_trace now cps st (process_contacts now (st, flag) cps).1.
Proof.
  apply (process_contacts_emit_ind (step_trace now cps st) now cps);
    [|done|apply step_trace_refl].
  intros st1 hit other label Htr Hget Hhit Hother _ Hcp.
  by apply step_trace_emit.
Qed.

Lemma step_trace_step {Obs : Type} st
    (env_step : Obs * Q * bool * option (gmap string info_value)) now cps :
  step_trace now cps (tick st) (step st env_step now cps).1.
Proof. rewrite step_state. apply step_trace_loop. Qed.

(** X1.  A step appends to the event log and never rewrites it; the
    step counter goes up by one, and every appended event carries the
    new count. *)
Theorem step_appends_events_of_this_step :
  ∀ (Obs : Type) (st : State)
    (env_step : Obs * Q * bool * option (gmap string info_value))
    (now : Q) (cps : list (Z * Z)),
    step_count (step st env_step now cps).1 = step_count st + 1
    ∧ ∃ new,
        audio_events (step st env_step now cps).1 = audio_events st ++ new
        ∧ ∀ e, e ∈ new → ev_step e = step_count (step st env_step now cps).1.
Proof.
  intros Obs st env_step now cps.
  destruct (step_trace_step st env_step now cps)
    as (new & Hev & Hcfg & Hok & _).
  destruct Hcfg as (_ & _ & _ & _ & _ & _ & Hsc & _).
  split; [exact Hsc|]. exists new. split; [exact Hev|].
  intros e He. rewrite Forall_forall in Hok.
  destruct (Hok e He) as (Hstep & _). by rewrite Hstep, Hsc.
Qed.

(** X2.  Every event a step appends is about a body of the identity
    map with a label, and records that label; neither body of the
    event is ignored; [tool_touch] says whether the other body is a
    tool; and the two bodies are a contact pair of this step.  So
    silent and untracked bodies never get an event. *)
Theorem step_events_are_labelled_contacts :
  ∀ (Obs : Type) (st : State)
    (env_step : Obs * Q * bool * option (gmap string info_value))
    (now : Q) (cps : list (Z * Z)),
    ∃ new,
      audio_events (step st env_step now cps).1 = audio_events st ++ new
      ∧ ∀ e, e ∈ new →
          dict_get (object_sound_map st) (ev_object_id e)
          = Some (Some (ev_sound e))
          ∧ (ev_object_id e ∉ ignore_bodies st)
          ∧ (ev_other_body e ∉ ignore_bodies st)
          ∧ ev_tool_touch e = bool_decide (ev_other_body e ∈ tool_bodies st)
          ∧ ((ev_object_id e, ev_other_body e) ∈ cps
             ∨ (ev_other_body e, ev_object_id e) ∈ cps).
Proof.
  intros Obs st env_step now cps.
  destruct (step_trace_step st env_step now cps) as (new & Hev & _ & Hok & _).
  exists new. split; [exact Hev|]. intros e He.
  rewrite Forall_forall in Hok. by destruct (Hok e He) as (_ & ? & ? & ? & ? & ?).
Qed.

(** X3.  A step records the clock reading as last play time of exactly
    the objects it appended an event for; the last play time of every
    other id is untouched. *)
Theorem step_records_now_for_emitters_only :
  ∀ (Obs : Type) (st : State)
    (env_step : Obs * Q * bool * option (gmap string info_value))
    (now : Q) (cps : list (Z * Z)),
    ∃ new,
      audio_events (step st env_step now cps).1 = audio_events st ++ new
      ∧ ∀ id,
          last_play_time (step st env_step now cps).1 !! id
          = if bool_decide (id ∈ ev_object_id <$> new) then Some now
            else last_play_time st !! id.
Proof.
  intros Obs st env_step now cps.
  destruct (step_trace_step st env_step now cps)
    as (new & Hev & _ & _ & _ & Hlast).
  by exists new.
Qed.

(** X4.  A step hands to [_play] the wav of each appended event whose
    label is in the sound bank, in the order of the events, and nothing
    else; an event with a label the bank does not know is recorded
    without playback. *)
Theorem step_plays_the_known_sounds :
  ∀ (Obs : Type) (st : State)
    (env_step : Obs * Q * bool * option (gmap string info_value))
    (now : Q) (cps : list (Z * Z)),
    ∃ new,
      audio_events (step st env_step now cps).1 = audio_events st ++ new
      ∧ spawned (step st env_step now cps).1 = spawned st ++ wavs_of new
      ∧ (length (wavs_of new) ≤ length new)%nat
      ∧ ((∀ e, e ∈ new → sound_bank (ev_sound e) = None) →
         spawned (step st env_step now cps).1 = spawned st).
Proof.
  intros Obs st env_step now cps.
  destruct (step_trace_step st env_step now cps)
    as (new & Hev & _ & _ & Hsp & _).
  exists new. split; [exact Hev|]. split; [exact Hsp|]. split.
  - unfold wavs_of. clear. induction new as [|e new IH]; [done|].
    cbn [omap list_omap length]. destruct (sound_bank (ev_sound e)); simpl; lia.
  - intros Hnone. rewrite Hsp.
    assert (wavs_of new = []) as ->; [|by rewrite app_nil_r].
    unfold wavs_of. clear -Hnone. induction new as [|e new IH]; [done|].
    cbn [omap list_omap]. rewrite (Hnone e) by left.
    apply IH. intros e' He'. apply Hnone. by right.
Qed.

(** X5.  With the policy disabled, as it is by default, [step] never
    raises and passes on the simulator's observation, reward and done
    flag; the termination reason in the returned info is the
    simulator's, if it has one. *)
Theorem step_with_policy_disabled_passes_through :
  ∀ (Obs : Type) (st : State) (obs : Obs) (reward : Q) (done : bool)
    (info : option (gmap string info_value)) (now : Q) (cps : list (Z * Z)),
    terminate_on_silent_touch st = false →
    ∃ info',
      (step st (obs, reward, done, info) now cps).2
      = Ok (obs, reward, done, info')
      ∧ info' !! "terminated_reason" = default ∅ info !! "terminated_reason".
Proof.
  intros Obs st obs reward done info now cps Hoff.
  rewrite step_unfold. cbn zeta. unfold forced. rewrite Hoff. cbn [andb snd].
  eexists. split; [done|].
  apply expose_lookup_other. unfold audio_keys. set_solver.
Qed.

Lemma existsb_same_elements {A : Type} (f : A → bool) (l l' : list A) :
  (∀ x, x ∈ l → f x = true → ∃ y, y ∈ l' ∧ f y = true) →
  (∀ y, y ∈ l' → f y = true → ∃ x, x ∈ l ∧ f x = true) →
  existsb f l = existsb f l'.
Proof.
  intros H1 H2. apply eq_true_iff_eq. rewrite !existsb_exists.
  split; intros (x & Hin & Hf); apply list_elem_of_In in Hin.
  - destruct (H1 x Hin Hf) as (y & Hy & Hfy). exists y.
    split; [by apply list_elem_of_In|done].
  - destruct (H2 x Hin Hf) as (y & Hy & Hfy). exists y.
    split; [by apply list_elem_of_In|done].
Qed.

Lemma silent_touch_pair_swap st a b :
  silent_touch_pair st (a, b) = silent_touch_pair st (b, a).
Proof.
  unfold silent_touch_pair. cbn [fst snd].
  rewrite (andb_comm (bool_decide (a ∉ _))). f_equal. apply orb_comm.
Qed.

(** X6.  Whether a step ends the episode, and with what reward, does
    not depend on the order of the contact points, on repetitions, or
    on which body of a pair the simulator names first: two contact
    lists with the same unordered pairs give the same outcome. *)
Theorem step_outcome_ignores_contact_order :
  ∀ (Obs : Type) (st : State)
    (env_step : Obs * Q * bool * option (gmap string info_value))
    (now : Q) (cps cps' : list (Z * Z)),
    (∀ a b, ((a, b) ∈ cps ∨ (b, a) ∈ cps) ↔ ((a, b) ∈ cps' ∨ (b, a) ∈ cps')) →
    outcome (step st env_step now cps).2
    = outcome (step st env_step now cps').2.
Proof.
  intros Obs st [[[obs reward] done] info] now cps cps' Hsame.
  assert (forced st cps done = forced st cps' done) as Hf.
  { unfold forced. f_equal. f_equal. apply existsb_same_elements.
    - intros [a b] Hin Ht.
      destruct (proj1 (Hsame a b) (or_introl Hin)) as [Hin'|Hin'].
      + by exists (a, b).
      + exists (b, a). by rewrite silent_touch_pair_swap.
    - intros [a b] Hin Ht.
      destruct (proj2 (Hsame a b) (or_introl Hin)) as [Hin'|Hin'].
      + by exists (a, b).
      + exists (b, a). by rewrite silent_touch_pair_swap. }
  rewrite !step_unfold. cbn zeta. rewrite Hf.
  destruct (forced st cps' done); [by destruct info|done].
Qed.

(** X7.  When every tool body is also in the ignore-set, no step ever
    forces termination: [step] returns the simulator's reward and done
    flag, and no event has [tool_touch] set. *)
Theorem ignored_tools_never_violate :
  ∀ (Obs : Type) (st : State) (obs : Obs) (reward : Q) (done : bool)
    (info : option (gmap string info_value)) (now : Q) (cps : list (Z * Z)),
    tool_bodies st ⊆ ignore_bodies st →
    forced st cps done = false
    ∧ (∃ info', (step st (obs, reward, done, info) now cps).2
                = Ok (obs, reward, done, info')
                ∧ info' !! "terminated_reason"
                  = default ∅ info !! "terminated_reason")
    ∧ ∃ new,
        audio_events (step st (obs, reward, done, info) now cps).1
        = audio_events st ++ new
        ∧ ∀ e, e ∈ new → ev_tool_touch e = false.
Proof.
  intros Obs st obs reward done info now cps Hsub.
  assert (forced st cps done = false) as Hf.
  { unfold forced.
    assert (existsb (silent_touch_pair st) cps = false) as ->;
      [|by rewrite andb_false_r].
    apply not_true_is_false. rewrite existsb_exists.
    intros ([a b] & _ & Ht). unfold silent_touch_pair in Ht. cbn [fst snd] in Ht.
    apply andb_prop in Ht as [Hign Ht]. apply andb_prop in Hign as [Ha Hb].
    apply bool_decide_eq_true in Ha, Hb.
    apply orb_prop in Ht as [Ht|Ht]; apply andb_prop in Ht as [_ Ht];
      apply bool_decide_eq_true in Ht; [apply Hb|apply Ha]; by apply Hsub. }
  split; [exact Hf|]. split.
  - rewrite step_unfold. cbn zeta. rewrite Hf. eexists. split; [done|].
    apply expose_lookup_other. unfold audio_keys. set_solver.
  - destruct (step_trace_step st (obs, reward, done, info) now cps)
      as (new & Hev & _ & Hok & _).
    exists new. split; [exact Hev|]. intros e He.
    rewrite Forall_forall in Hok.
    destruct (Hok e He) as (_ & _ & _ & Hother & -> & _).
    apply bool_decide_eq_false_2. intros Ht. apply Hother. by apply Hsub.
Qed.

(** One iteration of the inner loop when the cooldown is not positive
    and no recorded time is ahead of the clock: a labelled body emits. *)
Lemma process_hit_without_cooldown now hit other st flag :
  (cooldown st <= 0)%Q → (0 <= now)%Q →
  (∀ id t, last_play_time st !! id = Some t → (t <= now)%Q) →
  other ∉ ignore_bodies st →
  ∃ st1 f1,
    process_hit now hit other (st, flag) = (st1, f1)
    ∧ same_config st st1
    ∧ length (audio_events st1)
      = (length (audio_events st) + (if has_label st hit then 1 else 0))%nat
    ∧ ∀ id t, last_play_time st1 !! id = Some t → (t <= now)%Q.
Proof.
  intros Hcd Hnow Hpast Hother. unfold has_label.
  destruct (dict_get (object_sound_map st) hit) as [[label|]|] eqn:Hget.
  - rewrite (process_hit_labelled _ _ _ _ _ _ Hget Hother).
    assert (Qltb (now - default 0%Q (last_play_time st !! hit)) (cooldown st)
            = false) as ->.
    { apply Qltb_false.
      destruct (last_play_time st !! hit) as [t|] eqn:Ht; simpl.
      - specialize (Hpast hit t Ht). lra.
      - lra. }
    eexists _, _. split; [done|]. split; [apply emit_same_config|]. split.
    + rewrite emit_events, length_app. simpl. lia.
    + intros id t. rewrite emit_last_play_time.
      destruct (decide (hit = id)) as [->|Hne].
      * rewrite lookup_insert_eq. intros [= <-]. apply Qle_refl.
      * rewrite lookup_insert_ne by done. apply Hpast.
  - destruct (process_hit_cases now hit other st flag)
      as [-> | [(_ & _ & ->) | (label & Hl & _)]]; [| |congruence];
      eexists _, _; (split; [done|]); (split; [apply same_config_refl|]);
      (split; [lia|done]).
  - destruct (process_hit_cases now hit other st flag)
      as [-> | [(Hl & _) | (label & Hl & _)]]; [|congruence|congruence].
    eexists _, _. split; [done|]. split; [apply same_config_refl|].
    split; [lia|done].
Qed.

Lemma has_label_same_config st st' id :
  same_config st st' → has_label st' id = has_label st id.
Proof. intros (Hm & _). unfold has_label. by rewrite Hm. Qed.

Lemma emitting_sides_same_config st st' cp :
  same_config st st' → emitting_sides st' cp = emitting_sides st cp.
Proof.
  intros Hc. unfold emitting_sides.
  rewrite !(has_label_same_config st st') by done.
  by destruct Hc as (_ & _ & -> & _).
Qed.

Lemma process_contacts_without_cooldown now cps st flag :
  (cooldown st <= 0)%Q → (0 <= now)%Q →
  (∀ id t, last_play_time st !! id = Some t → (t <= now)%Q) →
  length (audio_events (process_contacts now (st, flag) cps).1)
  = (length (audio_events st) + sum_list (emitting_sides st <$> cps))%nat.
Proof.
  revert st flag. induction cps as [|[a b] cps IH];
    intros st flag Hcd Hnow Hpast; [simpl; lia|].
  unfold process_contacts in *. rewrite fmap_cons. cbn [foldl sum_list].
  assert (∃ st2 f2,
            process_cp now (st, flag) (a, b) = (st2, f2)
            ∧ same_config st st2
            ∧ length (audio_events st2)
              = (length (audio_events st) + emitting_sides st (a, b))%nat
            ∧ ∀ id t, last_play_time st2 !! id = Some t → (t <= now)%Q)
    as (st2 & f2 & -> & Hc & Hlen & Hpast2).
  { unfold process_cp, emitting_sides. cbn [fst snd].
    destruct (decide (a ∈ ignore_bodies st)) as [Ha|Ha].
    { rewrite (bool_decide_eq_true_2 _ Ha). cbn [orb].
      eexists _, _. split; [done|]. split; [apply same_config_refl|].
      split; [lia|done]. }
    destruct (decide (b ∈ ignore_bodies st)) as [Hb|Hb].
    { rewrite (bool_decide_eq_true_2 _ Hb), orb_true_r.
      eexists _, _. split; [done|]. split; [apply same_config_refl|].
      split; [lia|done]. }
    rewrite (bool_decide_eq_false_2 _ Ha), (bool_decide_eq_false_2 _ Hb).
    cbn [orb].
    destruct (process_hit_without_cooldown now a b st flag Hcd Hnow Hpast Hb)
      as (st1 & f1 & -> & Hc1 & Hlen1 & Hpast1).
    pose proof Hc1 as (_ & Hcd1 & Hig1 & _).
    destruct (process_hit_without_cooldown now b a st1 f1)
      as (st2 & f2 & -> & Hc2 & Hlen2 & Hpast2);
      [by rewrite Hcd1|done|done|by rewrite Hig1|].
    eexists _, _. split; [done|].
    split; [exact (same_config_trans _ _ _ Hc1 Hc2)|]. split; [|done].
    rewrite Hlen2, Hlen1, (has_label_same_config st st1) by done. lia. }
  pose proof Hc as (_ & Hcd2 & _).
  rewrite IH; [|by rewrite Hcd2|done|done]. rewrite Hlen.
  assert (emitting_sides st2 <$> cps = emitting_sides st <$> cps) as ->.
  { apply list_fmap_ext. intros _ cp _. by apply emitting_sides_same_config. }
  unfold id. lia.
Qed.

(** X8.  With a cooldown that is zero or negative there is no
    debouncing: provided the clock is not negative and not behind any
    recorded play time, a step appends one event for each labelled side
    of each non-ignored contact pair, repetitions included. *)
Theorem nonpositive_cooldown_emits_every_contact :
  ∀ (Obs : Type) (st : State)
    (env_step : Obs * Q * bool * option (gmap string info_value))
    (now : Q) (cps : list (Z * Z)),
    (cooldown st <= 0)%Q → (0 <= now)%Q →
    (∀ id t, last_play_time st !! id = Some t → (t <= now)%Q) →
    length (audio_events (step st env_step now cps).1)
    = (length (audio_events st) + sum_list (emitting_sides st <$> cps))%nat.
Proof.
  intros Obs st env_step now cps Hcd Hnow Hpast.
  rewrite step_state.
  by rewrite (process_contacts_without_cooldown now cps (tick st) false).
Qed.

Lemma steps_ascend_constant (c : Z) (l : list event) :
  Forall (λ e, ev_step e = c) l → steps_ascend l.
Proof.
  unfold steps_ascend. induction 1 as [|e l He Hl IH]; constructor; [done|].
  eapply Forall_impl; [exact Hl|]. intros e' He'. cbn beta in *. lia.
Qed.

(** X9.  In every state a wrapper can reach, the step counter is not
    negative, every event of the log carries a step index between 1 and
    the counter, and the indices never decrease along the log. *)
Theorem reachable_event_steps_in_range :
  ∀ st : State,
    reachable st →
    0 ≤ step_count st
    ∧ (∀ e, e ∈ audio_events st → 1 ≤ ev_step e ≤ step_count st)
    ∧ steps_ascend (audio_events st).
Proof.
  induction 1 as [m cd dbg ign tools term pen st Hwf Hinit
                 | Obs st env_reset _ _
                 | Obs st env_step now cps _ (Hsc & Hrange & Hsorted)].
  - injection Hinit as <-. split; [done|]. split; [|constructor].
    intros e He. by apply elem_of_nil in He.
  - unfold reset. destruct (draw_embeddings _ _ _ _) as [emb g]. cbn.
    split; [done|]. split; [|constructor].
    intros e He. by apply elem_of_nil in He.
  - destruct (step_trace_step st env_step now cps)
      as (new & Hev & Hcfg & Hok & _).
    destruct Hcfg as (_ & _ & _ & _ & _ & _ & Hcount & _).
    cbn [tick step_count] in Hcount. rewrite Forall_forall in Hok.
    rewrite Hev, Hcount. split; [lia|]. split.
    + intros e [He|He]%elem_of_app.
      * specialize (Hrange e He). lia.
      * destruct (Hok e He) as (-> & _). cbn [tick step_count]. lia.
    + apply StronglySorted_app. split; [|split; [exact Hsorted|]].
      * intros e1 e2 He1 He2. specialize (Hrange e1 He1).
        destruct (Hok e2 He2) as (-> & _). cbn [tick step_count]. lia.
      * apply (steps_ascend_constant (step_count st + 1)).
        apply Forall_forall. intros e He. by destruct (Hok e He) as (-> & _).
Qed.

Lemma in_episode_reachable st : in_episode st → reachable st.
Proof. induction 1; by constructor. Qed.

Lemma in_episode_labelled_embedded st :
  in_episode st →
  (∀ k label,
     dict_get (object_sound_map st) k = Some (Some label) →
     ∃ v, audio_obj_emb st !! k = Some v ∧ length v = 128%nat)
  ∧ ∀ e, e ∈ audio_events st →
      ∃ label, dict_get (object_sound_map st) (ev_object_id e)
               = Some (Some label).
Proof.
  induction 1 as [Obs st env_reset Hreach
                 | Obs st env_step now cps _ (Hemb & Hev)].
  - destruct (reachable_identity_inv st Hreach) as (Hwf & Hdim & _).
    destruct (reset_keeps_config st env_reset) as (Hm & _).
    rewrite Hm. split.
    + intros k label Hget.
      destruct (reset_embedding_lookup st env_reset Hwf k) as [_ Hdraw].
      destruct Hdraw as (i & _ & Hi).
      { apply dict_get_labelled; [done|by exists label]. }
      eexists. split; [exact Hi|]. unfold nth_draw. by rewrite draw_length.
    + intros e He. exfalso. revert He. unfold reset.
      destruct (draw_embeddings _ _ _ _) as [emb g]. cbn. apply not_elem_of_nil.
  - destruct (step_keeps_identity st env_step now cps) as (Hm & _ & _ & He).
    cbn zeta in Hm, He. rewrite Hm, He. split; [exact Hemb|].
    destruct (step_trace_step st env_step now cps) as (new & -> & _ & Hok & _).
    intros e [Hin|Hin]%elem_of_app; [by apply Hev|].
    rewrite Forall_forall in Hok. destruct (Hok e Hin) as (_ & Hget & _).
    by exists (ev_sound e).
Qed.

(** X10.  Once [reset] has been called, every event in the log is about
    an object that has an embedding, a vector of 128 samples: a reader
    of [info] finds the embedding of every event's object. *)
Theorem events_have_embeddings_in_episode :
  ∀ st : State,
    in_episode st →
    ∀ e, e ∈ audio_events st →
      ∃ v, audio_obj_emb st !! ev_object_id e = Some v
           ∧ length v = 128%nat.
Proof.
  intros st Hep e He.
  destruct (in_episode_labelled_embedded st Hep) as (Hemb & Hev).
  destruct (Hev e He) as (label & Hget). by apply (Hemb _ label).
Qed.

Lemma reset_keeps_settings {Obs : Type} st (env_reset : Obs) :
  let st' := (reset st env_reset).1 in
  object_sound_map st' = object_sound_map st
  ∧ cooldown st' = cooldown st
  ∧ ignore_bodies st' = ignore_bodies st
  ∧ tool_bodies st' = tool_bodies st
  ∧ terminate_on_silent_touch st' = terminate_on_silent_touch st
  ∧ silent_penalty st' = silent_penalty st
  ∧ emb_dim st' = emb_dim st.
Proof. unfold reset. by destruct (draw_embeddings _ _ _ _) as [emb g]. Qed.

(** X11.  No sequence of [reset] and [step] calls changes the
    configuration of a wrapper: identity map, cooldown, ignore-set,
    tool-set, termination policy, penalty and embedding size stay as
    [__init__] stored them. *)
Theorem run_keeps_configuration :
  ∀ (Obs : Type) (calls : list (call Obs)) (st : State),
    object_sound_map (run st calls) = object_sound_map st
    ∧ cooldown (run st calls) = cooldown st
    ∧ ignore_bodies (run st calls) = ignore_bodies st
    ∧ tool_bodies (run st calls) = tool_bodies st
    ∧ terminate_on_silent_touch (run st calls) = terminate_on_silent_touch st
    ∧ silent_penalty (run st calls) = silent_penalty st
    ∧ emb_dim (run st calls) = emb_dim st.
Proof.
  intros Obs calls. induction calls as [|c calls IH]; intros st; [done|].
  unfold run in *. cbn [foldl].
  destruct (IH (perform st c)) as (-> & -> & -> & -> & -> & -> & ->).
  destruct c as [env_reset|env_step now cps]; cbn [perform].
  - apply reset_keeps_settings.
  - rewrite step_state.
    pose proof (process_contacts_same_config now cps (tick st) false)
      as (?&?&?&?&?&?&?&?&?&?).
    by repeat split.
Qed.

End MoreProperties.

(** ** The callers: [scripts/eval_audio_vima.py] *)

Lemma elem_of_range (n : nat) (bid : Z) : bid ∈ range n ↔ 0 ≤ bid < Z.of_nat n.
Proof.
  unfold range. rewrite list_elem_of_lookup. split.
  - intros (i & Hi). apply lookup_seqZ in Hi. lia.
  - intros Hb. exists (Z.to_nat bid). apply lookup_seqZ. lia.
Qed.

(** The loop of [detect_robot_body]: either no body beats the running
    best, or the result is the first body with the largest count. *)
Lemma detect_loop_spec (joints : Z → option Z) (bids : list Z) (best best_j : Z) :
  let r := EvalAudioVima.detect_loop joints bids best best_j in
  (r = best
   ∧ ∀ b nj, b ∈ bids → joints b = Some nj → nj ≤ best_j)
  ∨ (∃ pre post m,
       bids = pre ++ r :: post
       ∧ joints r = Some m ∧ best_j < m
       ∧ (∀ b nj, b ∈ pre → joints b = Some nj → nj < m)
       ∧ (∀ b nj, b ∈ post → joints b = Some nj → nj ≤ m)).
Proof.
  revert best best_j. induction bids as [|b bids IH]; intros best best_j.
  - left. split; [done|]. intros b nj Hb. by apply elem_of_nil in Hb.
  - cbn [EvalAudioVima.detect_loop].
    destruct (joints b) as [nj|] eqn:Hj; [destruct (best_j <? nj) eqn:Hlt|].
    + apply Z.ltb_lt in Hlt. right.
      destruct (IH b nj) as [(-> & Hall) | (pre & post & m & Hb & Hm & Hlt' & Hpre & Hpost)].
      * exists [], bids, nj. repeat split; try done.
        intros b' n' Hb'. by apply elem_of_nil in Hb'.
      * exists (b :: pre), post, m. rewrite Hb at 1. repeat split; try done; [lia|].
        intros b' n' [->|Hb']%elem_of_cons Hn'; [|by eapply Hpre].
        rewrite Hj in Hn'. injection Hn' as <-. lia.
    + apply Z.ltb_ge in Hlt.
      destruct (IH best best_j) as [(-> & Hall) | (pre & post & m & Hb & Hm & Hlt' & Hpre & Hpost)].
      * left. split; [done|].
        intros b' n' [->|Hb']%elem_of_cons Hn'; [|by eapply Hall].
        rewrite Hj in Hn'. injection Hn' as <-. lia.
      * right. exists (b :: pre), post, m. rewrite Hb at 1.
        repeat split; try done.
        intros b' n' [->|Hb']%elem_of_cons Hn'; [|by eapply Hpre].
        rewrite Hj in Hn'. injection Hn' as <-. lia.
    + destruct (IH best best_j) as [(-> & Hall) | (pre & post & m & Hb & Hm & Hlt' & Hpre & Hpost)].
      * left. split; [done|].
        intros b' n' [->|Hb']%elem_of_cons Hn'; [congruence|by eapply Hall].
      * right. exists (b :: pre), post, m. rewrite Hb at 1.
        repeat split; try done.
        intros b' n' [->|Hb']%elem_of_cons Hn'; [congruence|by eapply Hpre].
Qed.

Lemma range_sorted (n : nat) : StronglySorted Z.lt (range n).
Proof.
  unfold range, seqZ.
  apply StronglySorted_fmap with (R1 := lt); [intros ??; lia|].
  generalize 0%nat. induction (Z.to_nat (Z.of_nat n)) as [|k IH]; intros j;
    [constructor|].
  cbn [seq]. constructor; [apply IH|].
  apply Forall_forall. intros i Hi%elem_of_seq. lia.
Qed.

Lemma range_split_sorted (n : nat) (pre post : list Z) (r : Z) :
  range n = pre ++ r :: post →
  (∀ b, b ∈ pre → b < r) ∧ (∀ b, b ∈ post → r < b).
Proof.
  intros Hsplit. pose proof (range_sorted n) as Hs. rewrite Hsplit in Hs.
  apply StronglySorted_app in Hs as (Hcross & _ & Hs).
  apply StronglySorted_cons in Hs as [Hlt _]. rewrite Forall_forall in Hlt.
  split; [|done]. intros b Hb. apply Hcross; [done|left].
Qed.

(** X12.  [detect_robot_body] returns the first body, in id order, with
    the largest joint count among the bodies whose query succeeds; when
    there is no body, or no query succeeds with a count of at least 0,
    it returns 0. *)
Theorem detect_robot_body_first_maximum :
  ∀ (nb : nat) (joints : Z → option Z),
    let r := EvalAudioVima.detect_robot_body nb joints in
    ((∀ b nj, 0 ≤ b < Z.of_nat nb → joints b = Some nj → nj < 0) → r = 0)
    ∧ ((∃ b nj, 0 ≤ b < Z.of_nat nb ∧ joints b = Some nj ∧ 0 ≤ nj) →
       0 ≤ r < Z.of_nat nb
       ∧ ∃ m, joints r = Some m
              ∧ ∀ b nj, 0 ≤ b < Z.of_nat nb → joints b = Some nj →
                  nj ≤ m ∧ (b < r → nj < m)).
Proof.
  intros nb joints r. subst r. unfold EvalAudioVima.detect_robot_body.
  destruct (detect_loop_spec joints (range nb) 0 (-1))
    as [(-> & Hall) | (pre & post & m & Hsplit & Hm & Hlt & Hpre & Hpost)].
  - split; [done|]. intros (b & nj & Hb & Hj & Hnj). exfalso.
    apply elem_of_range in Hb. specialize (Hall b nj Hb Hj). lia.
  - set (r := EvalAudioVima.detect_loop joints (range nb) 0 (-1)) in *.
    assert (r ∈ range nb) as Hr.
    { rewrite Hsplit. apply elem_of_app. right. left. }
    destruct (range_split_sorted nb pre post r Hsplit) as [Hbefore Hafter].
    split.
    + intros Hnone. exfalso. apply elem_of_range in Hr.
      specialize (Hnone r m Hr Hm). lia.
    + intros _. split; [by apply elem_of_range|]. exists m. split; [done|].
      intros b nj Hb Hj. apply elem_of_range in Hb. rewrite Hsplit in Hb.
      apply elem_of_app in Hb as [Hb|[->|Hb]%elem_of_cons].
      * specialize (Hpre b nj Hb Hj). lia.
      * rewrite Hm in Hj. injection Hj as <-. lia.
      * specialize (Hpost b nj Hb Hj). specialize (Hafter b Hb). lia.
Qed.

Lemma StronglySorted_filter_keeps {A : Type} (R : relation A) (P : A → Prop)
    `{∀ x, Decision (P x)} (l : list A) :
  StronglySorted R l → StronglySorted R (filter P l).
Proof.
  induction 1 as [|x l Hl IH Hx]; [constructor|].
  rewrite filter_cons. case_decide; [|done]. constructor; [done|].
  apply Forall_forall. intros y [_ Hy]%list_elem_of_filter.
  rewrite Forall_forall in Hx. by apply Hx.
Qed.

Lemma StronglySorted_lt_le (l : list Z) :
  StronglySorted Z.lt l → StronglySorted Z.le l.
Proof.
  induction 1 as [|x l Hl IH Hx]; constructor; [done|].
  eapply Forall_impl; [exact Hx|]. intros y Hy. cbn beta in Hy. lia.
Qed.

Lemma StronglySorted_lt_NoDup (l : list Z) : StronglySorted Z.lt l → NoDup l.
Proof.
  induction 1 as [|x l Hl IH Hx]; constructor; [|done].
  intros Hin. rewrite Forall_forall in Hx. specialize (Hx x Hin). lia.
Qed.

(** Sorting an ascending list of ids changes nothing. *)
Lemma merge_sort_ascending (l : list Z) :
  StronglySorted Z.lt l → merge_sort Z.le l = l.
Proof.
  intros Hl. apply (StronglySorted_unique Z.le).
  - apply StronglySorted_merge_sort; apply _.
  - by apply StronglySorted_lt_le.
  - apply merge_sort_Permutation.
Qed.

Lemma dict_set_fresh {V : Type} (d : list (Z * V)) (k : Z) (v : V) :
  k ∉ d.*1 → dict_set d k v = d ++ [(k, v)].
Proof.
  induction d as [|[k' v'] d IH]; [done|]. cbn [dict_set fmap list_fmap fst].
  intros [Hne Hk]%not_elem_of_cons. rewrite decide_False by done.
  by rewrite IH.
Qed.

Lemma labelled_from_keys silent_set candidates si :
  (labelled_from silent_set candidates si).*1 = candidates.
Proof.
  revert si. induction candidates as [|bid l IH]; intros si; [done|].
  cbn [labelled_from]. case_bool_decide; cbn [fmap list_fmap fst]; by rewrite IH.
Qed.

(** The second loop of [build_object_sound_map] on distinct ids writes
    one new entry per candidate, in order. *)
Lemma assign_labels_app silent_set candidates si obj_map :
  NoDup (obj_map.*1 ++ candidates) →
  EvalAudioVima.assign_labels silent_set candidates si obj_map
  = obj_map ++ labelled_from silent_set candidates si.
Proof.
  revert si obj_map. induction candidates as [|bid l IH]; intros si obj_map Hnd.
  - by rewrite app_nil_r.
  - assert (bid ∉ obj_map.*1) as Hfresh.
    { apply NoDup_app in Hnd as (_ & Hdisj & _). intros Hin.
      apply (Hdisj bid Hin). left. }
    assert (∀ v : option string, NoDup ((obj_map ++ [(bid, v)]).*1 ++ l))
      as Hnd'.
    { intros v. rewrite fmap_app. cbn [fmap list_fmap fst].
      by rewrite <- app_assoc. }
    cbn [EvalAudioVima.assign_labels labelled_from].
    case_bool_decide; rewrite dict_set_fresh by done;
      rewrite IH by apply Hnd'; by rewrite <- app_assoc.
Qed.

Lemma labelled_from_all_silent silent_set l1 l2 si :
  (∀ b, b ∈ l1 → b ∈ silent_set) →
  labelled_from silent_set (l1 ++ l2) si
  = ((λ bid, (bid, None)) <$> l1) ++ labelled_from silent_set l2 si.
Proof.
  induction l1 as [|b l1 IH]; intros Hall; [done|].
  cbn [app labelled_from fmap list_fmap].
  rewrite bool_decide_eq_true_2 by (apply Hall; left).
  rewrite IH; [done|]. intros b' Hb'. apply Hall. by right.
Qed.

Lemma labelled_from_none_silent silent_set l si :
  (∀ b, b ∈ l → b ∉ silent_set) →
  labelled_from silent_set l si
  = imap (λ j bid,
            (bid, Some (cycle_label EvalAudioVima.SOUND_LABELS (si + j)))) l.
Proof.
  revert si. induction l as [|b l IH]; intros si Hall; [done|].
  cbn [labelled_from]. rewrite bool_decide_eq_false_2 by (apply Hall; left).
  rewrite imap_cons, Nat.add_0_r. f_equal.
  rewrite IH by (intros b' Hb'; apply Hall; by right).
  apply imap_ext. intros j b' _. unfold compose.
  by replace (S si + j)%nat with (si + S j)%nat by lia.
Qed.

Lemma is_candidate_true ignore_bodies tool_bodies mass bid :
  EvalAudioVima.is_candidate ignore_bodies tool_bodies mass bid = true
  ↔ (bid ∉ ignore_bodies) ∧ (bid ∉ tool_bodies)
    ∧ ∃ m, mass bid = Some m ∧ (0 < m)%Q.
Proof.
  unfold EvalAudioVima.is_candidate.
  destruct (decide (bid ∈ ignore_bodies)) as [Hi|Hi].
  { rewrite (bool_decide_eq_true_2 _ Hi). cbn [orb]. naive_solver. }
  destruct (decide (bid ∈ tool_bodies)) as [Ht|Ht].
  { rewrite (bool_decide_eq_true_2 _ Ht), orb_true_r. naive_solver. }
  rewrite (bool_decide_eq_false_2 _ Hi), (bool_decide_eq_false_2 _ Ht).
  cbn [orb]. destruct (mass bid) as [m|]; [|naive_solver].
  rewrite andb_true_iff, negb_true_iff, Qltb_true. split.
  - intros [_ Hm]. by eauto.
  - intros (_ & _ & m' & [= <-] & Hm). split; [|done].
    apply not_true_is_false. rewrite Qeq_bool_iff. lra.
Qed.

Lemma candidates_unsorted silent_count nb mass ignore_bodies tool_bodies :
  (EvalAudioVima.build_object_sound_map silent_count nb mass
     ignore_bodies tool_bodies).2
  = filter (λ bid, EvalAudioVima.is_candidate ignore_bodies tool_bodies
                     mass bid) (range nb).
Proof.
  unfold EvalAudioVima.build_object_sound_map. cbn [snd].
  apply merge_sort_ascending, StronglySorted_filter_keeps, range_sorted.
Qed.

(** X13.  The candidates of [build_object_sound_map] are exactly the
    bodies with positive mass that are neither ignored nor tools, in
    ascending id order (the sort changes nothing); the keys of the
    returned identity map are these candidates, each once.  So no key
    of the map is in the ignore-set or in the tool-set. *)
Theorem build_object_sound_map_keys :
  ∀ (silent_count : nat → nat) (nb : nat) (mass : Z → option Q)
    (ignore_bodies tool_bodies : gset Z),
    let built := EvalAudioVima.build_object_sound_map silent_count nb mass
                   ignore_bodies tool_bodies in
    (∀ bid, bid ∈ built.2 ↔
       0 ≤ bid < Z.of_nat nb ∧ (bid ∉ ignore_bodies) ∧ (bid ∉ tool_bodies)
       ∧ ∃ m, mass bid = Some m ∧ (0 < m)%Q)
    ∧ StronglySorted Z.lt built.2
    ∧ built.1.*1 = built.2
    ∧ dict_wf built.1
    ∧ ∀ bid, bid ∈ built.1.*1 → (bid ∉ ignore_bodies) ∧ (bid ∉ tool_bodies).
Proof.
  intros silent_count nb mass ignore_bodies tool_bodies built.
  pose proof (candidates_unsorted silent_count nb mass ignore_bodies
                tool_bodies) as Hcand. fold built in Hcand.
  assert (∀ bid, bid ∈ built.2 ↔
            0 ≤ bid < Z.of_nat nb ∧ (bid ∉ ignore_bodies) ∧ (bid ∉ tool_bodies)
            ∧ ∃ m, mass bid = Some m ∧ (0 < m)%Q) as Hmem.
  { intros bid. rewrite Hcand, list_elem_of_filter, elem_of_range.
    rewrite Is_true_true, is_candidate_true. naive_solver. }
  assert (StronglySorted Z.lt built.2) as Hsorted.
  { rewrite Hcand. apply StronglySorted_filter_keeps, range_sorted. }
  assert (built.1.*1 = built.2) as Hkeys.
  { subst built. unfold EvalAudioVima.build_object_sound_map in *.
    cbn [fst snd] in *. rewrite assign_labels_app.
    - apply labelled_from_keys.
    - cbn [fmap list_fmap app]. by apply StronglySorted_lt_NoDup. }
  split; [exact Hmem|]. split; [exact Hsorted|]. split; [exact Hkeys|].
  split.
  - unfold dict_wf. rewrite Hkeys. by apply StronglySorted_lt_NoDup.
  - intros bid Hbid. rewrite Hkeys in Hbid. apply Hmem in Hbid. naive_solver.
Qed.

(** X14.  The identity map of [build_object_sound_map] makes the first
    [silent_n] candidates silent (all of them if there are fewer) and
    gives the remaining ones the labels tingting, thud, alarm in
    rotation, starting with tingting. *)
Theorem build_object_sound_map_labels :
  ∀ (silent_count : nat → nat) (nb : nat) (mass : Z → option Q)
    (ignore_bodies tool_bodies : gset Z),
    let built := EvalAudioVima.build_object_sound_map silent_count nb mass
                   ignore_bodies tool_bodies in
    let silent_n := silent_count (length built.2) in
    built.1
    = ((λ bid, (bid, None)) <$> take silent_n built.2)
      ++ imap (λ j bid,
                 (bid, Some (cycle_label EvalAudioVima.SOUND_LABELS j)))
           (drop silent_n built.2).
Proof.
  intros silent_count nb mass ignore_bodies tool_bodies built silent_n.
  assert (NoDup built.2) as Hnd.
  { unfold built. rewrite candidates_unsorted.
    apply StronglySorted_lt_NoDup, StronglySorted_filter_keeps, range_sorted. }
  subst built silent_n. unfold EvalAudioVima.build_object_sound_map in *.
  cbn [fst snd] in *.
  set (candidates := merge_sort Z.le _) in *.
  set (k := silent_count (length candidates)).
  rewrite assign_labels_app by done. cbn [app].
  rewrite <- (take_drop k candidates) at 2.
  rewrite <- (take_drop k candidates) in Hnd.
  apply NoDup_app in Hnd as (_ & Hdisj & _).
  rewrite labelled_from_all_silent by (intros b Hb; by apply elem_of_list_to_set).
  f_equal. apply labelled_from_none_silent.
  intros b Hb Hin. apply elem_of_list_to_set in Hin. by apply (Hdisj b).
Qed.

Section CallerProperties.
Context `{NumpyRng}.

Lemma perform_keeps_settings {Obs : Type} (st : State) (c : call Obs) :
  object_sound_map (perform st c) = object_sound_map st
  ∧ ignore_bodies (perform st c) = ignore_bodies st
  ∧ tool_bodies (perform st c) = tool_bodies st
  ∧ terminate_on_silent_touch (perform st c) = terminate_on_silent_touch st.
Proof.
  destruct c as [env_reset|env_step now cps]; cbn [perform].
  - by destruct (reset_keeps_settings st env_reset) as (?&?&?&?&?&?&?).
  - rewrite step_state.
    by pose proof (process_contacts_same_config now cps (tick st) false)
      as (?&?&?&?&?&?&?&?&?&?).
Qed.

Lemma run_preserves {Obs : Type} (P : State → Prop) (calls : list (call Obs)) :
  (∀ st (c : call Obs), P st → P (perform st c)) →
  ∀ st, P st → P (run st calls).
Proof.
  intros Hstep. induction calls as [|c calls IH]; intros st HP; [done|].
  unfold run in *. cbn [foldl]. by apply IH, Hstep.
Qed.

Lemma run_reachable {Obs : Type} (calls : list (call Obs)) (st : State) :
  reachable st → reachable (run st calls).
Proof.
  apply (run_preserves reachable). intros st' [env_reset|env_step now cps] Hr;
    cbn [perform]; by constructor.
Qed.

Lemma forced_false_of_ignored_tools st cps done :
  tool_bodies st ⊆ ignore_bodies st → forced st cps done = false.
Proof.
  intros Hsub. unfold forced.
  assert (existsb (silent_touch_pair st) cps = false) as ->;
    [|by rewrite andb_false_r].
  apply not_true_is_false. rewrite existsb_exists.
  intros ([a b] & _ & Ht). unfold silent_touch_pair in Ht. cbn [fst snd] in Ht.
  apply andb_prop in Ht as [Hign Ht]. apply andb_prop in Hign as [Ha Hb].
  apply bool_decide_eq_true in Ha, Hb.
  apply orb_prop in Ht as [Ht|Ht]; apply andb_prop in Ht as [_ Ht];
    apply bool_decide_eq_true in Ht; [apply Hb|apply Ha]; by apply Hsub.
Qed.

Lemma set_or_empty_elements (X : gset Z) : set_or_empty (Some (elements X)) = X.
Proof. unfold set_or_empty. cbn [default]. apply list_to_set_elements_L. Qed.

Lemma built_map_wf silent_count nb mass ignore_bodies tool_bodies :
  dict_wf (EvalAudioVima.build_object_sound_map silent_count nb mass
             ignore_bodies tool_bodies).1.
Proof.
  assert (NoDup (EvalAudioVima.build_object_sound_map silent_count nb mass
                   ignore_bodies tool_bodies).2) as Hnd.
  { rewrite candidates_unsorted.
    apply StronglySorted_lt_NoDup, StronglySorted_filter_keeps, range_sorted. }
  unfold dict_wf, EvalAudioVima.build_object_sound_map in *. cbn [fst snd] in *.
  rewrite assign_labels_app by done. cbn [app].
  by rewrite labelled_from_keys.
Qed.

(** X15.  [run_episode] puts the robot body into the tool-set and into
    the ignore-set.  In the wrapper it constructs, the termination
    policy is enabled but can never fire: whatever the calls made
    before, every [step] returns the simulator's reward and done flag
    and leaves the termination reason as the simulator gave it. *)
Theorem episode_wrapper_policy_never_fires :
  ∀ (silent_count : nat → nat) (nb : nat) (lname : Z → string)
    (joints : Z → option Z) (mass : Z → option Q) (st0 : State),
    EvalAudioVima.episode_wrapper silent_count nb lname joints mass = Ok st0 →
    terminate_on_silent_touch st0 = true
    ∧ tool_bodies st0 = {[ EvalAudioVima.detect_robot_body nb joints ]}
    ∧ EvalAudioVima.detect_robot_body nb joints ∈ ignore_bodies st0
    ∧ reachable st0
    ∧ ∀ (Obs : Type) (calls : list (call Obs)) (obs : Obs) (reward : Q)
        (done : bool) (info : option (gmap string info_value)) (now : Q)
        (cps : list (Z * Z)),
        ∃ info',
          (step (run st0 calls) (obs, reward, done, info) now cps).2
          = Ok (obs, reward, done, info')
          ∧ info' !! "terminated_reason"
            = default ∅ info !! "terminated_reason".
Proof.
  intros silent_count nb lname joints mass st0 Hbuilt.
  unfold EvalAudioVima.episode_wrapper, EvalAudioVima.episode_bodies in Hbuilt.
  set (robot := EvalAudioVima.detect_robot_body nb joints) in *.
  set (scenery := list_to_set _ : gset Z) in Hbuilt.
  destruct (EvalAudioVima.build_object_sound_map silent_count nb mass
              (scenery ∪ {[robot]}) {[robot]}) as [m dyn] eqn:Hm.
  assert (dict_wf m) as Hwf.
  { pose proof (built_map_wf silent_count nb mass (scenery ∪ {[robot]})
                  {[robot]}) as Hw. by rewrite Hm in Hw. }
  assert (reachable st0) as Hreach by (by eapply reach_init).
  injection Hbuilt as <-. cbn [terminate_on_silent_touch tool_bodies
                                 ignore_bodies init_state].
  rewrite !set_or_empty_elements.
  split; [done|]. split; [done|]. split; [set_solver|]. split; [done|].
  intros Obs calls obs reward done info now cps.
  rewrite step_unfold. cbn zeta.
  rewrite forced_false_of_ignored_tools.
  - eexists. split; [done|].
    apply expose_lookup_other. unfold audio_keys. set_solver.
  - apply (run_preserves (λ st, tool_bodies st ⊆ ignore_bodies st)).
    + intros st c Hsub.
      by destruct (perform_keeps_settings st c) as (_ & -> & -> & _).
    + cbn [tool_bodies ignore_bodies init_state].
      rewrite !set_or_empty_elements. set_solver.
Qed.

End CallerProperties.

(** ** The callers: [scripts/demo_trimodal_gui.py] *)

Lemma assign_cycle_app (oids : list Z) (idx : nat)
    (m : list (Z * option string)) :
  NoDup (m.*1 ++ oids) →
  DemoTrimodalGui.assign_cycle oids idx m
  = m ++ imap (λ j oid,
                 (oid, Some (cycle_label DemoTrimodalGui.labels (idx + j))))
         oids.
Proof.
  revert idx m. induction oids as [|oid oids IH]; intros idx m Hnd.
  - by rewrite app_nil_r.
  - assert (oid ∉ m.*1) as Hfresh.
    { apply NoDup_app in Hnd as (_ & Hdisj & _). intros Hin.
      apply (Hdisj oid Hin). left. }
    cbn [DemoTrimodalGui.assign_cycle]. rewrite dict_set_fresh by done.
    rewrite IH.
    + rewrite imap_cons, Nat.add_0_r, <- app_assoc. cbn [app]. do 2 f_equal.
      apply imap_ext. intros j oid' _. unfold compose.
      by replace (S idx + j)%nat with (idx + S j)%nat by lia.
    + rewrite fmap_app. cbn [fmap list_fmap fst]. by rewrite <- app_assoc.
Qed.

Lemma imap_pair_keys {V : Type} (g : nat → V) (l : list Z) :
  (imap (λ j x, (x, g j)) l).*1 = l.
Proof.
  revert g. induction l as [|x l IH]; intros g; [done|].
  rewrite imap_cons. cbn [fmap list_fmap fst]. f_equal. apply (IH (g ∘ S)).
Qed.

(** X16.  The identity map of the demo lists the bodies with positive
    mass whose name is not a tool name, in ascending id order, each
    once and none silent, labelled tingting, thud, alarm in rotation.
    No key is a tool id; a key is in the ignore-set exactly when the
    body's name is a scenery name. *)
Theorem demo_identity_map_avoids_tools :
  ∀ (nb : nat) (mass : Z → Q) (lname : Z → string),
    let m := DemoTrimodalGui.object_sound_map nb mass lname in
    m = imap (λ idx oid, (oid, Some (cycle_label DemoTrimodalGui.labels idx)))
          (DemoTrimodalGui.object_ids nb mass lname)
    ∧ dict_wf m
    ∧ StronglySorted Z.lt m.*1
    ∧ ∀ oid, oid ∈ m.*1 →
        0 ≤ oid < Z.of_nat nb
        ∧ (0 < mass oid)%Q
        ∧ (oid ∉ DemoTrimodalGui.tool_ids nb lname)
        ∧ (oid ∈ DemoTrimodalGui.ignore_bodies nb mass lname
           ↔ contains "line.urdf" (lname oid) || contains "workspace" (lname oid)
             || contains "ur5" (lname oid) || contains "plane" (lname oid)
             = true).
Proof.
  intros nb mass lname m.
  assert (StronglySorted Z.lt (DemoTrimodalGui.object_ids nb mass lname))
    as Hsorted by apply StronglySorted_filter_keeps, range_sorted.
  assert (m = imap (λ idx oid,
                      (oid, Some (cycle_label DemoTrimodalGui.labels idx)))
                (DemoTrimodalGui.object_ids nb mass lname)) as Hm.
  { subst m. unfold DemoTrimodalGui.object_sound_map.
    rewrite assign_cycle_app by (by apply StronglySorted_lt_NoDup). done. }
  assert (m.*1 = DemoTrimodalGui.object_ids nb mass lname) as Hkeys.
  { rewrite Hm. apply imap_pair_keys. }
  split; [exact Hm|]. unfold dict_wf. rewrite Hkeys.
  split; [by apply StronglySorted_lt_NoDup|]. split; [done|].
  intros oid Hoid. unfold DemoTrimodalGui.object_ids in Hoid.
  apply list_elem_of_filter in Hoid as [Hobj Hrange].
  apply Is_true_true in Hobj. unfold DemoTrimodalGui.is_object in Hobj.
  apply andb_prop in Hobj as [Hmass Htool].
  apply Qltb_true in Hmass. apply negb_true_iff in Htool.
  split; [by apply elem_of_range|]. split; [done|]. split.
  - unfold DemoTrimodalGui.tool_ids. rewrite list_elem_of_filter.
    intros [Ht _]. apply Is_true_true in Ht. congruence.
  - unfold DemoTrimodalGui.ignore_bodies.
    rewrite elem_of_list_to_set, list_elem_of_filter, Is_true_true.
    unfold DemoTrimodalGui.ignored.
    assert (Qeq_bool (mass oid) 0 = false) as ->.
    { apply not_true_is_false. rewrite Qeq_bool_iff. lra. }
    cbn [orb]. naive_solver.
Qed.

Section DemoProperties.
Context `{NumpyRng}.

Lemma astype_float32_length (v : list Q) :
  length (astype_float32 v) = length v.
Proof. unfold astype_float32. apply length_fmap. Qed.

(** X17.  The audio vector the demo derives from the info of a step,
    once [reset] has been called, always has 128 entries: the float32
    embedding of the object of the most recent event, or zeros while
    the log is empty. *)
Theorem demo_audio_vec_has_embedding_size :
  ∀ (Obs : Type) (st : State)
    (env_step : Obs * Q * bool * option (gmap string info_value))
    (now : Q) (cps : list (Z * Z)) (obs' : Obs) (reward' : Q) (done' : bool)
    (info' : gmap string info_value),
    in_episode st →
    (step st env_step now cps).2 = Ok (obs', reward', done', info') →
    ∃ v,
      DemoTrimodalGui.audio_vec_of_info info' = Some v
      ∧ length v = 128%nat
      ∧ match last (audio_events (step st env_step now cps).1) with
        | Some e =>
            ∃ emb, audio_obj_emb st !! ev_object_id e = Some emb
                   ∧ v = astype_float32 emb
        | None => v = replicate 128 0%Q
        end.
Proof.
  intros Obs st [[[obs reward] done] info] now cps obs' reward' done' info'
    Hep Hret.
  pose proof (episode_step Obs st (obs, reward, done, info) now cps Hep) as Hep'.
  destruct (in_episode_labelled_embedded _ Hep') as (Hemb & Hev).
  destruct (reachable_identity_inv _ (in_episode_reachable _ Hep'))
    as (_ & Hdim & _).
  destruct (step_keeps_identity st (obs, reward, done, info) now cps)
    as (Hm & _ & _ & He). cbn zeta in Hm, He.
  set (st' := (step st (obs, reward, done, info) now cps).1) in *.
  assert (∃ info0, info' = expose st' info0) as (info0 & ->).
  { subst st'. revert Hret. rewrite step_unfold. cbn zeta.
    destruct (forced st cps done); [destruct info|]; cbn [fst snd];
      intros [= <- <- <- <-]; by eexists. }
  destruct (expose_lookup_audio st' info0) as (Kev & _ & Kemb & Kdim).
  unfold DemoTrimodalGui.audio_vec_of_info. rewrite Kev, Kemb, Kdim, Hdim.
  cbn [default]. change (Z.of_nat 128 <? 0) with false. cbn match.
  eexists. split; [reflexivity|].
  unfold DemoTrimodalGui.audio_vec.
  destruct (last (audio_events st')) as [e|] eqn:Hlast;
    [|split; [apply length_replicate|done]].
  assert (e ∈ audio_events st') as Hin.
  { apply last_Some in Hlast as (l' & ->). apply elem_of_app. right. left. }
  destruct (Hev e Hin) as (label & Hget).
  destruct (Hemb _ _ Hget) as (v & Hv & Hlen).
  rewrite lookup_fmap, Hv. cbn [fmap option_fmap option_map tolist].
  unfold tolist. rewrite astype_float32_length.
  split; [done|]. exists v. split; [by rewrite <- He|done].
Qed.

End DemoProperties.

(** ** Debouncing and the log across steps *)

Section EpisodeProperties.
Context `{NumpyRng}.

(** X18.  An object on cooldown is silent for the whole step: when the
    clock is less than the cooldown past the object's last play time
    (or past 0.0 if it has none), the step appends no event for that
    object, however many of its contacts are reported, and its last
    play time stays as it is. *)
Theorem step_suppresses_object_on_cooldown :
  ∀ (Obs : Type) (st : State)
    (env_step : Obs * Q * bool * option (gmap string info_value))
    (now : Q) (cps : list (Z * Z)) (obj_id : Z),
    (now - default 0%Q (last_play_time st !! obj_id) < cooldown st)%Q →
    last_play_time (step st env_step now cps).1 !! obj_id
    = last_play_time st !! obj_id
    ∧ ∃ new,
        audio_events (step st env_step now cps).1 = audio_events st ++ new
        ∧ ∀ e, e ∈ new → ev_object_id e ≠ obj_id.
Proof.
  intros Obs st env_step now cps obj_id Hcd. rewrite step_state.
  set (P := λ st' : State,
         cooldown st' = cooldown st
         ∧ last_play_time st' !! obj_id = last_play_time st !! obj_id
         ∧ ∃ new, audio_events st' = audio_events st ++ new
                  ∧ ∀ e, e ∈ new → ev_object_id e ≠ obj_id).
  assert (P (process_contacts now (tick st, false) cps).1)
    as (_ & Hlast & Hnew); [|done].
  apply (process_contacts_emit_ind P now cps); [|done|].
  - intros st' hit other label (Hc & Hl & new & Hev & Hnew) _ _ _ Hpermit _.
    assert (hit ≠ obj_id) as Hne.
    { intros ->. rewrite Hl, Hc in Hpermit. lra. }
    split; [done|]. split.
    + rewrite emit_last_play_time. by rewrite lookup_insert_ne.
    + eexists (new ++ [_]). rewrite emit_events, Hev, <- app_assoc.
      split; [done|]. intros e [He|He]%elem_of_app; [by apply Hnew|].
      apply list_elem_of_singleton in He. by subst e.
  - split; [done|]. split; [done|]. exists []. rewrite app_nil_r.
    split; [done|]. intros e He. by apply elem_of_nil in He.
Qed.

(** X19.  Between two resets the log only grows: after any sequence of
    [step] calls the earlier log is a prefix of the later one, and the
    step counter has advanced by the number of calls. *)
Theorem events_grow_within_episode :
  ∀ (Obs : Type) (steps : list (call Obs)) (st : State),
    Forall is_step steps →
    audio_events st `prefix_of` audio_events (run st steps)
    ∧ step_count (run st steps) = step_count st + Z.of_nat (length steps).
Proof.
  intros Obs steps. induction steps as [|c steps IH]; intros st Hsteps.
  - split; [done|]. cbn. lia.
  - apply Forall_cons in Hsteps as [Hc Hsteps].
    destruct c as [env_reset|env_step now cps]; [done|].
    unfold run in *. cbn [foldl perform].
    destruct (IH (step st env_step now cps).1 Hsteps) as [Hpre Hcount].
    destruct (step_trace_step st env_step now cps)
      as (new & Hev & Hcfg & _).
    destruct Hcfg as (_ & _ & _ & _ & _ & _ & Hsc & _).
    cbn [tick step_count audio_events] in Hev, Hsc. split.
    + etrans; [|exact Hpre]. rewrite Hev. by apply prefix_app_r.
    + rewrite Hcount, Hsc, length_cons. lia.
Qed.

End EpisodeProperties.

(** ** The further properties on concrete inputs *)

Lemma step_with_policy_disabled_passes_through_witness :
  terminate_on_silent_touch (solo default_cooldown) = false
  ∧ ∃ info',
      (step (solo default_cooldown) quiet_no_info 100 [(3, 7)]).2
      = Ok (tt, 0%Q, false, info')
      ∧ info' !! "terminated_reason" = None.
Proof.
  split; [reflexivity|].
  apply (step_with_policy_disabled_passes_through unit (solo default_cooldown)
           tt 0%Q false None 100%Q [(3, 7)]).
  reflexivity.
Defined.

Lemma step_outcome_ignores_contact_order_witness :
  outcome (step demo quiet 100 [(9, 5); (6, 7)]).2
  = outcome (step demo quiet 100 [(7, 6); (5, 9); (5, 9)]).2.
Proof.
  apply (step_outcome_ignores_contact_order unit demo quiet 100%Q
           [(9, 5); (6, 7)] [(7, 6); (5, 9); (5, 9)]).
  intros a b. rewrite !elem_of_cons, !elem_of_nil. split; intros Hab;
    repeat (destruct Hab as [Hab|Hab]); try done;
    injection Hab as -> ->; tauto.
Defined.

Lemma ignored_tools_never_violate_witness :
  tool_bodies robot_ignored ⊆ ignore_bodies robot_ignored
  ∧ forced robot_ignored [(9, 5)] false = false
  ∧ ∃ info',
      (step robot_ignored quiet 100 [(9, 5)]).2 = Ok (tt, 0%Q, false, info')
      ∧ info' !! "terminated_reason" = None.
Proof.
  assert (tool_bodies robot_ignored ⊆ ignore_bodies robot_ignored) as Hsub
    by (apply (bool_decide_unpack _); by vm_compute).
  split; [exact Hsub|].
  destruct (ignored_tools_never_violate unit robot_ignored tt 0%Q false
              (Some ∅) 100%Q [(9, 5)] Hsub) as (Hf & Hret & _).
  split; [exact Hf|]. exact Hret.
Defined.

Lemma nonpositive_cooldown_emits_every_contact_witness :
  (cooldown (solo 0) <= 0)%Q
  ∧ length (audio_events (step (solo 0) quiet 5 [(3, 7); (7, 3); (7, 7)]).1)
    = 4%nat.
Proof.
  assert (cooldown (solo 0) <= 0)%Q as Hcd by (by vm_compute).
  split; [exact Hcd|].
  rewrite (nonpositive_cooldown_emits_every_contact unit (solo 0) quiet 5%Q
             [(3, 7); (7, 3); (7, 7)] Hcd).
  - by vm_compute.
  - by vm_compute.
  - intros id t Ht. change (last_play_time (solo 0)) with (∅ : gmap Z Q) in Ht.
    by rewrite lookup_empty in Ht.
Defined.

Lemma reachable_event_steps_in_range_witness :
  reachable (step demo quiet 100 [(9, 6)]).1
  ∧ steps_ascend (audio_events (step demo quiet 100 [(9, 6)]).1).
Proof.
  assert (reachable (step demo quiet 100 [(9, 6)]).1) as Hreach
    by (constructor; exact demo_reachable).
  split; [exact Hreach|].
  by destruct (reachable_event_steps_in_range _ Hreach) as (_ & _ & ?).
Defined.

Lemma demo_in_episode :
  in_episode (step (reset demo tt).1 quiet 100 [(9, 6); (6, 7)]).1.
Proof. constructor. constructor. exact demo_reachable. Defined.

Lemma events_have_embeddings_in_episode_witness :
  Event 1 6 "tingting" 9 true
    ∈ audio_events (step (reset demo tt).1 quiet 100 [(9, 6); (6, 7)]).1
  ∧ ∃ v, audio_obj_emb (step (reset demo tt).1 quiet 100 [(9, 6); (6, 7)]).1
           !! 6 = Some v
         ∧ length v = 128%nat.
Proof.
  assert (Event 1 6 "tingting" 9 true
            ∈ audio_events
                (step (reset demo tt).1 quiet 100 [(9, 6); (6, 7)]).1) as Hin.
  { replace (audio_events
               (step (reset demo tt).1 quiet 100 [(9, 6); (6, 7)]).1)
      with [Event 1 6 "tingting" 9 true; Event 1 7 "thud" 6 false]
      by (by vm_compute).
    left. }
  split; [exact Hin|].
  exact (events_have_embeddings_in_episode _ demo_in_episode _ Hin).
Defined.

Lemma detect_robot_body_first_maximum_witness :
  (∃ b nj, 0 ≤ b < Z.of_nat scene_bodies ∧ scene_joints b = Some nj ∧ 0 ≤ nj)
  ∧ EvalAudioVima.detect_robot_body scene_bodies scene_joints = 2
  ∧ 0 ≤ EvalAudioVima.detect_robot_body scene_bodies scene_joints
      < Z.of_nat scene_bodies.
Proof.
  assert (∃ b nj, 0 ≤ b < Z.of_nat scene_bodies
                  ∧ scene_joints b = Some nj ∧ 0 ≤ nj) as Hsome
    by (exists 2, 6; by vm_compute).
  split; [exact Hsome|]. split; [reflexivity|].
  destruct (detect_robot_body_first_maximum scene_bodies scene_joints)
    as [_ Hmax].
  by destruct (Hmax Hsome) as [Hrange _].
Defined.

Lemma episode_wrapper_policy_never_fires_witness :
  EvalAudioVima.episode_wrapper silent_count_exact scene_bodies scene_lname
    scene_joints scene_mass = Ok scene_state
  ∧ tool_bodies scene_state = {[ 2 ]}
  ∧ ∃ info',
      (step (run scene_state [CallReset tt]) (tt, 0%Q, false, None) 100
         [(2, 3)]).2
      = Ok (tt, 0%Q, false, info')
      ∧ info' !! "terminated_reason" = None.
Proof.
  assert (EvalAudioVima.episode_wrapper silent_count_exact scene_bodies
            scene_lname scene_joints scene_mass = Ok scene_state) as Hbuilt
    by (by vm_compute).
  split; [exact Hbuilt|].
  destruct (episode_wrapper_policy_never_fires silent_count_exact scene_bodies
              scene_lname scene_joints scene_mass scene_state Hbuilt)
    as (_ & Htools & _ & _ & Hstep).
  split; [exact Htools|].
  exact (Hstep unit [CallReset tt] tt 0%Q false None 100%Q [(2, 3)]).
Defined.

Lemma scene_demo_in_episode : in_episode scene_demo_state.
Proof.
  apply (episode_reset unit
           (init_state
              (DemoTrimodalGui.object_sound_map scene_bodies scene_mass_total
                 scene_lname) (1 # 4) false
              (Some (elements (DemoTrimodalGui.ignore_bodies scene_bodies
                                 scene_mass_total scene_lname)))
              (Some (elements (list_to_set (C := gset Z)
                                 (DemoTrimodalGui.tool_ids scene_bodies
                                    scene_lname))))
              false default_silent_penalty) tt).
  eapply reach_init; [|reflexivity].
  unfold dict_wf. apply (bool_decide_unpack _). by vm_compute.
Defined.

Lemma demo_audio_vec_has_embedding_size_witness :
  match (step scene_demo_state quiet 100 [(3, 4)]).2 with
  | Ok (_, _, _, info') =>
      ∃ v, DemoTrimodalGui.audio_vec_of_info info' = Some v
           ∧ length v = 128%nat
  | Raise _ => False
  end.
Proof.
  destruct (step scene_demo_state quiet 100 [(3, 4)]).2
    as [[[[obs' reward'] done'] info']|e] eqn:Hret.
  - destruct (demo_audio_vec_has_embedding_size unit scene_demo_state quiet
                100%Q [(3, 4)] obs' reward' done' info' scene_demo_in_episode
                Hret) as (v & Hv & Hlen & _).
    by exists v.
  - exfalso. revert Hret. by vm_compute.
Defined.

Lemma step_suppresses_object_on_cooldown_witness :
  let st1 := (step (solo default_cooldown) quiet 1000 [(3, 7)]).1 in
  Qlt ((10001 # 10) - default 0%Q (last_play_time st1 !! 7)) (cooldown st1)
  ∧ (last_play_time (step st1 quiet (10001 # 10) [(3, 7); (7, 3)]).1 !! 7)
    = (last_play_time st1 !! 7).
Proof.
  cbn zeta.
  assert (Qlt ((10001 # 10)
               - default 0%Q
                   (last_play_time
                      (step (solo default_cooldown) quiet 1000 [(3, 7)]).1
                    !! 7))
            (cooldown (step (solo default_cooldown) quiet 1000 [(3, 7)]).1))
    as Hcd by (by vm_compute).
  split; [exact Hcd|].
  by destruct (step_suppresses_object_on_cooldown unit _ quiet (10001 # 10)
                 [(3, 7); (7, 3)] 7 Hcd) as [? _].
Defined.

Lemma events_grow_within_episode_witness :
  Forall is_step [CallStep quiet 100 [(9, 6)]; CallStep quiet 101 [(7, 6)]]
  ∧ step_count
      (run demo [CallStep quiet 100 [(9, 6)]; CallStep quiet 101 [(7, 6)]])
    = 2.
Proof.
  assert (Forall is_step
            [CallStep quiet 100 [(9, 6)]; CallStep quiet 101 [(7, 6)]])
    as Hsteps by (repeat constructor).
  split; [exact Hsteps|].
  by destruct (events_grow_within_episode unit _ demo Hsteps) as [_ ->].
Defined.

(** ** Object-to-object contacts within a step *)

Section ObjectContacts.
Context `{NumpyRng}.

(** A pair of a labelled body and a body, neither of them a tool, is
    no silent touch. *)
Lemma object_pair_no_silent_touch (st : State) d a label cp :
  dict_get (object_sound_map st) d = Some (Some label) →
  d ∉ tool_bodies st → a ∉ tool_bodies st →
  cp = (d, a) ∨ cp = (a, d) →
  silent_touch_pair st cp = false.
Proof.
  intros Hget Hdt Hat Hcp.
  assert (is_silent st d = false) as Hd by (unfold is_silent; by rewrite Hget).
  unfold silent_touch_pair.
  destruct Hcp as [-> | ->]; cbn [fst snd];
    rewrite Hd, (bool_decide_eq_false_2 _ Hdt),
      (bool_decide_eq_false_2 _ Hat);
    by rewrite ?andb_false_r, ?andb_false_l, ?orb_false_r.
Qed.

(** The cooldown of [d] still permits after the contact points
    [before], when it permitted at the start of the step and either the
    cooldown is not positive or no pair of [before] that is not ignored
    involves [d]. *)
Lemma loop_keeps_permit now before (st : State) flag d :
  (cooldown st <= now - default 0%Q (last_play_time st !! d))%Q →
  ((cooldown st <= 0)%Q
   ∨ ∀ x y, (x, y) ∈ before → x = d ∨ y = d →
            x ∈ ignore_bodies st ∨ y ∈ ignore_bodies st) →
  (cooldown (process_contacts now (st, flag) before).1
   <= now - default 0%Q
            (last_play_time (process_contacts now (st, flag) before).1 !! d))%Q.
Proof.
  intros Hcd Hearlier.
  destruct (step_trace_loop now before st flag)
    as (new & _ & Hcfg & Hok & _ & Hlast).
  destruct Hcfg as (_ & -> & _). rewrite Hlast.
  destruct (decide (d ∈ ev_object_id <$> new)) as [Hin|Hin].
  - rewrite (bool_decide_eq_true_2 _ Hin).
    change (default 0%Q (Some now)) with now.
    destruct Hearlier as [Hzero|Hnone].
    + lra.
    + exfalso. apply list_elem_of_fmap in Hin as (e & -> & He).
      rewrite Forall_forall in Hok.
      destruct (Hok e He) as (_ & _ & Hobj & Hother & _ & Hcp).
      destruct Hcp as [Hcp|Hcp]; apply Hnone in Hcp; tauto.
  - by rewrite (bool_decide_eq_false_2 _ Hin).
Qed.

(** C7 (amended).  In a step whose contact points are
    [before ++ cp :: after], the pair [cp] is a contact of the labelled
    tracked body [d] with a body [a], reported either way round;
    neither body is ignored and neither is a tool body.  The cooldown
    of [d] permits: it permitted when the step began, and either it is
    not positive or no earlier pair of the step that is not ignored
    involves [d].  Then the step records the event of [d] with [a] and
    [tool_touch = false] under the new step count, whatever the label
    of [a]; the pair is no silent touch, the violation flag at the end
    of the loop is what it is without the pair, and so are the returned
    reward and done flag. *)
Theorem object_contact_emits_in_step :
  ∀ (Obs : Type) (st : State)
    (env_step : Obs * Q * bool * option (gmap string info_value))
    (now : Q) (before after : list (Z * Z)) (d a : Z) (label : string)
    (cp : Z * Z),
    dict_get (object_sound_map st) d = Some (Some label) →
    d ∉ ignore_bodies st → a ∉ ignore_bodies st →
    d ∉ tool_bodies st → a ∉ tool_bodies st →
    cp = (d, a) ∨ cp = (a, d) →
    (cooldown st <= now - default 0%Q (last_play_time st !! d))%Q →
    ((cooldown st <= 0)%Q
     ∨ ∀ x y, (x, y) ∈ before → x = d ∨ y = d →
              x ∈ ignore_bodies st ∨ y ∈ ignore_bodies st) →
    (∃ pre post,
       audio_events (step st env_step now (before ++ cp :: after)).1
       = audio_events st ++ pre
         ++ [Event (step_count st + 1) d label a false] ++ post)
    ∧ silent_touch_pair st cp = false
    ∧ (process_contacts now (tick st, false) (before ++ cp :: after)).2
      = (process_contacts now (tick st, false) (before ++ after)).2
    ∧ outcome (step st env_step now (before ++ cp :: after)).2
      = outcome (step st env_step now (before ++ after)).2.
Proof.
  intros Obs st env_step now before after d a label cp
    Hget Hd Ha Hdt Hat Hcp Hcd Hearlier.
  pose proof (object_pair_no_silent_touch st d a label cp Hget Hdt Hat Hcp)
    as Hpair.
  assert (existsb (silent_touch_pair st) (before ++ cp :: after)
          = existsb (silent_touch_pair st) (before ++ after)) as Hex.
  { rewrite !existsb_app. cbn [existsb]. by rewrite Hpair. }
  split; [|split; [exact Hpair|split]].
  - rewrite step_state, process_contacts_app.
    pose proof (loop_keeps_permit now before (tick st) false d Hcd Hearlier)
      as Hcd1.
    destruct (step_trace_loop now before (tick st) false)
      as (new1 & Hev1 & Hcfg1 & _).
    destruct (process_contacts now (tick st, false) before) as [st1 f1].
    cbn [fst] in Hcd1, Hev1, Hcfg1.
    destruct Hcfg1 as (Hm & _ & Hig & Htl & _ & _ & Hsc & _).
    change (process_contacts now (st1, f1) (cp :: after))
      with (process_contacts now (process_cp now (st1, f1) cp) after).
    destruct (process_cp_object_contact st1 f1 now d a label cp)
      as [(pre & post & Hev2) _];
      [by rewrite Hm|by rewrite Hig|by rewrite Hig|by rewrite Htl
      |by rewrite Htl|exact Hcd1|exact Hcp|].
    destruct (process_cp now (st1, f1) cp) as [st2 f2]. cbn [fst] in Hev2.
    destruct (step_trace_loop now after st2 f2) as (new3 & Hev3 & _).
    exists (new1 ++ pre), (post ++ new3).
    rewrite Hev3, Hev2, Hev1, Hsc. cbn [tick audio_events step_count].
    by rewrite <- !app_assoc.
  - by rewrite !step_violation_flag.
  - destruct env_step as [[[obs reward] done] info].
    rewrite !step_unfold. cbn zeta. unfold forced. rewrite Hex.
    destruct (terminate_on_silent_touch st
              && existsb (silent_touch_pair st) (before ++ after)
              && negb done); [by destruct info|done].
Qed.

End ObjectContacts.

Lemma object_contact_emits_in_step_witness :
  (cooldown demo <= 100 - default 0%Q (last_play_time demo !! 6%Z))%Q
  ∧ (∃ pre post,
       audio_events (step demo quiet 100 ([(0, 6)] ++ (7, 6) :: [(6, 9)])).1
       = audio_events demo ++ pre
         ++ [Event (step_count demo + 1) 6 "tingting" 7 false] ++ post)
  ∧ outcome (step demo quiet 100 ([(0, 6)] ++ (7, 6) :: [(6, 9)])).2
    = outcome (step demo quiet 100 ([(0, 6)] ++ [(6, 9)])).2.
Proof.
  assert (cooldown demo <= 100 - default 0%Q (last_play_time demo !! 6%Z))%Q
    as Hcd by (by vm_compute).
  assert (0 ∈ ignore_bodies demo) as Hzero
    by (apply (bool_decide_unpack _); by vm_compute).
  split; [exact Hcd|].
  destruct (object_contact_emits_in_step unit demo quiet 100 [(0, 6)]
              [(6, 9)] 6 7 "tingting" (7, 6)) as (Hev & _ & _ & Hout);
    [reflexivity
    |apply (bool_decide_unpack _); by vm_compute
    |apply (bool_decide_unpack _); by vm_compute
    |apply (bool_decide_unpack _); by vm_compute
    |apply (bool_decide_unpack _); by vm_compute
    |by right
    |exact Hcd
    |right; intros x y Hin _;
     apply list_elem_of_singleton in Hin; injection Hin as -> ->; by left
    |].
  split; [exact Hev|exact Hout].
Defined.

(** C7, as stated, fails.  In [tracked_tool] the labelled body 6 is a
    tool body and body 5 is tracked and silent; neither is ignored, 5
    is not a tool body, and the cooldown of 6 permits.  The contact of
    6 with 5 records the event of 6 with [tool_touch = false], and the
    pair raises the violation flag: the step ends the episode with the
    penalty. *)
Lemma tracked_tool_contact_flags_violation :
  dict_get (object_sound_map tracked_tool) 6 = Some (Some "tingting")
  ∧ dict_get (object_sound_map tracked_tool) 5 = Some None
  ∧ (5 ∉ ignore_bodies tracked_tool) ∧ (6 ∉ ignore_bodies tracked_tool)
  ∧ (5 ∉ tool_bodies tracked_tool) ∧ (6 ∈ tool_bodies tracked_tool)
  ∧ (cooldown tracked_tool
     <= 100 - default 0%Q (last_play_time tracked_tool !! 6%Z))%Q
  ∧ audio_events (step tracked_tool quiet 100 [(6, 5)]).1
    = [Event 1 6 "tingting" 5 false]
  ∧ (process_cp 100 (tick tracked_tool, false) (6, 5)).2 = true
  ∧ (process_contacts 100 (tick tracked_tool, false) [(6, 5)]).2 = true
  ∧ (process_contacts 100 (tick tracked_tool, false) []).2 = false
  ∧ outcome (step tracked_tool quiet 100 [(6, 5)]).2
    = Some (tt, default_silent_penalty, true)
  ∧ outcome (step tracked_tool quiet 100 []).2 = Some (tt, 0%Q, false).
Proof.
  repeat split;
    first [ by vm_compute | apply (bool_decide_unpack _); by vm_compute ].
Qed.
